(** * Kythe: the sequential analysis driver and the Bazel artifact selectors

    A shallow embedding of

    - the Go package [driver] ([Driver.validate], [Driver.Run], the [Queue]
      interface and the [ErrRetry] sentinel), and
    - the C++ header [kythe/cxx/extractor/bazel_artifact_selector.h]
      ([BazelArtifactSelector] with its default [SerializeInto] and
      [DeserializeFrom], [AnyArtifactSelector], [ExtraActionSelector],
      [AspectArtifactSelector] and its [State]),

    followed by the properties of the specification that concern them. *)

From Stdlib Require Import String List Arith Lia.
From stdpp Require Import base option list strings gmap.
Import ListNotations.

Local Open Scope string_scope.
Local Open Scope list_scope.

(* ===================================================================== *)
(** * Part I: package driver                                              *)
(* ===================================================================== *)

Module Driver.

(** Go [error] values.  [Run] tells errors apart by identity only against
    [nil] and the two package-level sentinels [ErrRetry] and [io.EOF]; every
    other error value ([errors.New], [fmt.Errorf], whatever a hook returns) is
    an [errorString] carrying its message.  A nilable [error] is an
    [option error], [None] being [nil]. *)
Inductive error : Type :=
| ErrRetry                      (* var ErrRetry = errors.New("retry analysis") *)
| io_EOF                        (* io.EOF *)
| errorString (msg : string).

#[global] Instance error_eq_dec : EqDecision error.
Proof. solve_decision. Defined.

(** The [Error()] method. *)
Definition Error (e : error) : string :=
  match e with
  | ErrRetry => "retry analysis"
  | io_EOF => "EOF"
  | errorString msg => msg
  end.

Definition errors_New (msg : string) : error := errorString msg.

(** [fmt.Errorf(prefix + "%v", err)]: a new error value whose message is the
    prefix followed by [err.Error()]. *)
Definition fmt_Errorf (prefix : string) (err : error) : error :=
  errorString (prefix +:+ Error err).

(** [err == ErrRetry] and [err == io.EOF] on nilable errors. *)
Definition is_ErrRetry (err : option error) : bool := bool_decide (err = Some ErrRetry).
Definition is_EOF (err : option error) : bool := bool_decide (err = Some io_EOF).

Section Run.

(** [Ctx] is [context.Context]; [CompilationUnit] is [*apb.CompilationUnit];
    [AnalysisOutput] is [*apb.AnalysisOutput]; [W] is everything the hooks, the
    analyzer and the queue can read and change. *)
Context {Ctx CompilationUnit AnalysisOutput W : Type}.

Record Compilation : Type := {
  Unit : CompilationUnit;     (* the compilation to analyze *)
  Revision : string           (* revision marker to attribute to the compilation *)
}.

Record AnalysisRequest : Type := {
  req_Compilation : CompilationUnit;
  req_FileDataService : string;
  req_Revision : string
}.

(** [type CompilationFunc func(context.Context, Compilation) error] *)
Definition CompilationFunc : Type := Ctx -> Compilation -> W -> option error * W.

(** [analysis.OutputFunc] *)
Definition OutputFunc : Type := Ctx -> AnalysisOutput -> W -> option error * W.

(** The type of the [AnalysisError] field. *)
Definition AnalysisErrorFunc : Type := Ctx -> Compilation -> error -> W -> option error * W.

(** One call of [CompilationAnalyzer.Analyze] that returns: the analyzer
    either returns its result, or hands an output to the [OutputFunc] it was
    given and goes on from the sink's answer. *)
Inductive Analysis : Type :=
| Return (r : option error) (w : W)
| Emit (o : AnalysisOutput) (w : W) (k : option error -> W -> Analysis).

Definition CompilationAnalyzer : Type := Ctx -> AnalysisRequest -> W -> Analysis.

Record Driver : Type := {
  Analyzer : option CompilationAnalyzer;
  FileDataService : string;
  Setup : option CompilationFunc;
  Output : option OutputFunc;
  Teardown : option CompilationFunc;
  AnalysisError : option AnalysisErrorFunc
}.

(** What [Next] finds: the next compilation, or an error of its own ([io.EOF]
    when no further values are available). *)
Inductive Fetched : Type :=
| Item (cu : Compilation)
| NoItem (err : error).

(** A [Queue]: the state of the sequence is part of [W]. *)
Definition Queue : Type := Ctx -> W -> Fetched * W.

(** The calls [Run] makes, in order. *)
Inductive Call : Type :=
| CallNext
| CallSetup (cu : Compilation)
| CallAnalyze (req : AnalysisRequest)
| CallOutput (o : AnalysisOutput)
| CallAnalysisError (cu : Compilation) (err : error)
| CallTeardown (cu : Compilation)
| CallLogPrintf (msg : string).

Record St : Type := { world : W; calls : list Call }.

(** A computation ends with a value, runs out of loop iterations, or
    dereferences nil. *)
Inductive outcome (A : Type) : Type :=
| Done (a : A) (s : St)
| OutOfFuel
| Panic.
Arguments Done {A} a s.
Arguments OutOfFuel {A}.
Arguments Panic {A}.

Definition M (A : Type) : Type := St -> outcome A.

Definition ret {A} (a : A) : M A := fun s => Done a s.

Definition bind {A B} (m : M A) (k : A -> M B) : M B :=
  fun s => match m s with
           | Done a s' => k a s'
           | OutOfFuel => OutOfFuel
           | Panic => Panic
           end.

Local Notation "'let*' x := m 'in' k" := (bind m (fun x => k))
  (at level 10, x name, m at level 100, k at level 200).

(** Calling a hook: the call is recorded, the hook acts on the world. *)
Definition invoke {A} (c : Call) (f : W -> A * W) : M A :=
  fun s => let '(a, w) := f (world s) in
           Done a {| world := w; calls := calls s ++ [c] |}.

(** [log.Printf(msg)] *)
Definition log_Printf (msg : string) : M unit :=
  fun s => Done tt {| world := world s; calls := calls s ++ [CallLogPrintf msg] |}.

(** Running an analysis against the output function it was given; calling a
    nil [OutputFunc] panics. *)
Fixpoint run_analysis (out : option OutputFunc) (ctx : Ctx) (a : Analysis)
    (log : list Call) : outcome (option error) :=
  match a with
  | Return r w => Done r {| world := w; calls := log |}
  | Emit o w k =>
      match out with
      | None => Panic
      | Some f => let '(e, w') := f ctx o w in
                  run_analysis out ctx (k e w') (log ++ [CallOutput o])
      end
  end.

(** [a.Analyze(ctx, req, out)] *)
Definition Analyze (a : option CompilationAnalyzer) (ctx : Ctx)
    (req : AnalysisRequest) (out : option OutputFunc) : M (option error) :=
  fun s => match a with
           | None => Panic
           | Some an => run_analysis out ctx (an ctx req (world s))
                          (calls s ++ [CallAnalyze req])
           end.

(** [queue.Next(ctx, f)]: "Next invokes f with the next available compilation
    in the queue.  If no further values are available, Next must return
    io.EOF; otherwise, the return value from f is propagated to the caller of
    Next." *)
Definition Next (queue : Queue) (ctx : Ctx)
    (f : Ctx -> Compilation -> M (option error)) : M (option error) :=
  fun s => let '(x, w) := queue ctx (world s) in
           let s' := {| world := w; calls := calls s ++ [CallNext] |} in
           match x with
           | Item cu => f ctx cu s'
           | NoItem err => Done (Some err) s'
           end.

(** [func (d *Driver) validate() error] *)
Definition validate (d : Driver) : option error :=
  match Analyzer d with
  | None => Some (errors_New "missing Analyzer")
  | Some _ =>
      match Output d with
      | None => Some (errors_New "missing Output function")
      | Some _ => None
      end
  end.

(** The request [Run] builds for a compilation. *)
Definition request (d : Driver) (cu : Compilation) : AnalysisRequest :=
  {| req_Compilation := Unit cu;
     req_FileDataService := FileDataService d;
     req_Revision := Revision cu |}.

(** [if d.Setup != nil { if err := d.Setup(ctx, cu); err != nil { ... } }]:
    the error of the Setup hook, nil when there is no hook. *)
Definition setup_phase (d : Driver) (ctx : Ctx) (cu : Compilation) : M (option error) :=
  match Setup d with
  | Some setup => invoke (CallSetup cu) (setup ctx cu)
  | None => ret None
  end.

(** The body of the retry loop: one [Analyze] call, then
    [if d.AnalysisError != nil && err != nil { err = d.AnalysisError(ctx, cu, err) }]. *)
Definition attempt (d : Driver) (ctx : Ctx) (cu : Compilation) : M (option error) :=
  let* err := Analyze (Analyzer d) ctx (request d cu) (Output d) in
  match AnalysisError d, err with
  | Some hook, Some e => invoke (CallAnalysisError cu e) (hook ctx cu e)
  | _, _ => ret err
  end.

(** [for err == ErrRetry { ... }], entered with [err := ErrRetry]. *)
Fixpoint retry_loop (fuel : nat) (d : Driver) (ctx : Ctx) (cu : Compilation)
    (err : option error) : M (option error) :=
  if is_ErrRetry err then
    match fuel with
    | 0 => fun _ => OutOfFuel
    | S n => let* err' := attempt d ctx cu in retry_loop n d ctx cu err'
    end
  else ret err.

(** [if d.Teardown != nil { if tErr := d.Teardown(ctx, cu); tErr != nil { ... } }; return err] *)
Definition teardown_phase (d : Driver) (ctx : Ctx) (cu : Compilation)
    (err : option error) : M (option error) :=
  match Teardown d with
  | Some teardown =>
      let* tErr := invoke (CallTeardown cu) (teardown ctx cu) in
      match tErr with
      | Some te =>
          match err with
          | None => ret (Some (fmt_Errorf "analysis teardown error: " te))
          | Some e =>
              let* _ := log_Printf
                ("WARNING: analysis teardown error after analysis error: " +:+ Error te
                   +:+ " (analysis error: " +:+ Error e +:+ ")") in
              ret err
          end
      | None => ret err
      end
  | None => ret err
  end.

(** The function literal [Run] passes to [queue.Next]. *)
Definition handle (fuel : nat) (d : Driver) (ctx : Ctx) (cu : Compilation) : M (option error) :=
  let* sErr := setup_phase d ctx cu in
  match sErr with
  | Some e => ret (Some (fmt_Errorf "analysis setup error: " e))
  | None =>
      let* err := retry_loop fuel d ctx cu (Some ErrRetry) in
      teardown_phase d ctx cu err
  end.

(** The outer [for] of [Run]; [inner] bounds each retry loop, [fuel] the
    number of [Next] calls. *)
Fixpoint run_loop (inner fuel : nat) (d : Driver) (ctx : Ctx) (queue : Queue) : M (option error) :=
  match fuel with
  | 0 => fun _ => OutOfFuel
  | S n =>
      let* err := Next queue ctx (handle inner d) in
      if is_EOF err then ret None
      else match err with
           | Some e => ret (Some e)
           | None => run_loop inner n d ctx queue
           end
  end.

(** [func (d *Driver) Run(ctx context.Context, queue Queue) error] *)
Definition Run (fuel : nat) (d : Driver) (ctx : Ctx) (queue : Queue) : M (option error) :=
  match validate d with
  | Some err => ret (Some err)
  | None => run_loop fuel fuel d ctx queue
  end.

(** The calls of each kind in a stretch of the log. *)
Definition analyze_calls (l : list Call) : list AnalysisRequest :=
  flat_map (fun c => match c with CallAnalyze req => [req] | _ => [] end) l.
Definition setup_calls (l : list Call) : list Compilation :=
  flat_map (fun c => match c with CallSetup cu => [cu] | _ => [] end) l.
Definition teardown_calls (l : list Call) : list Compilation :=
  flat_map (fun c => match c with CallTeardown cu => [cu] | _ => [] end) l.

(** "The analyzer returns the retry sentinel exactly [K] times for the
    compilation and then succeeds", from the state in which it is first
    called. *)
Fixpoint analyzer_retries (K : nat) (d : Driver) (ctx : Ctx) (cu : Compilation)
    (s : St) : Prop :=
  match K with
  | 0 => exists s', Analyze (Analyzer d) ctx (request d cu) (Output d) s = Done None s'
  | S k => exists s', Analyze (Analyzer d) ctx (request d cu) (Output d) s
                        = Done (Some ErrRetry) s'
                      /\ analyzer_retries k d ctx cu s'
  end.

(** [k] compilations in a row are fetched and handled with a nil result. *)
Inductive items_handled (inner : nat) (d : Driver) (ctx : Ctx) (queue : Queue)
    : nat -> St -> St -> Prop :=
| items_handled_0 s : items_handled inner d ctx queue 0 s s
| items_handled_S k s s1 s2 :
    Next queue ctx (handle inner d) s = Done None s1 ->
    items_handled inner d ctx queue k s1 s2 ->
    items_handled inner d ctx queue (S k) s s2.

(** [type IO interface]: "the IO subset of the analysis Driver struct", a
    non-nil value of the interface by its four methods. *)
Record IO : Type := {
  io_Setup : CompilationFunc;
  io_Output : OutputFunc;
  io_Teardown : CompilationFunc;
  io_AnalysisError : AnalysisErrorFunc
}.

(** [func (d *Driver) Apply(io IO)]: the four function fields become the
    methods of [io]; [Analyzer] and [FileDataService] are not assigned. *)
Definition Apply (d : Driver) (io : IO) : Driver :=
  {| Analyzer := Analyzer d;
     FileDataService := FileDataService d;
     Setup := Some (io_Setup io);
     Output := Some (io_Output io);
     Teardown := Some (io_Teardown io);
     AnalysisError := Some (io_AnalysisError io) |}.

(** The number of [Next] calls in a stretch of the log. *)
Definition count_next (l : list Call) : nat :=
  length (flat_map (fun c => match c with CallNext => [tt] | _ => [] end) l).

(** The calls the retry loop may make for a compilation: the analyzer on the
    request built from it, the outputs, and the AnalysisError hook on it. *)
Definition analysis_call (d : Driver) (cu : Compilation) (c : Call) : Prop :=
  match c with
  | CallAnalyze req => req = request d cu
  | CallOutput _ => True
  | CallAnalysisError cu' _ => cu' = cu /\ AnalysisError d <> None
  | _ => False
  end.

(** [analyzer_retries], with the state [s'] in which the successful call
    leaves the world. *)
Fixpoint analyzer_retries_to (K : nat) (d : Driver) (ctx : Ctx) (cu : Compilation)
    (s s' : St) : Prop :=
  match K with
  | 0 => Analyze (Analyzer d) ctx (request d cu) (Output d) s = Done None s'
  | S k => exists s1, Analyze (Analyzer d) ctx (request d cu) (Output d) s
                        = Done (Some ErrRetry) s1
                      /\ analyzer_retries_to k d ctx cu s1 s'
  end.

(** The queue yields the compilations of [items] in turn; for each, Setup (if
    any) succeeds, the analyzer asks for the given number of retries and then
    succeeds, and Teardown (if any) succeeds. *)
Inductive retried_items (d : Driver) (ctx : Ctx) (queue : Queue)
    : list (Compilation * nat) -> St -> St -> Prop :=
| retried_nil s : retried_items d ctx queue [] s s
| retried_cons cu K rest s w s1 s2 s3 s' :
    queue ctx (world s) = (Item cu, w) ->
    setup_phase d ctx cu {| world := w; calls := calls s ++ [CallNext] |} = Done None s1 ->
    analyzer_retries_to K d ctx cu s1 s2 ->
    teardown_phase d ctx cu None s2 = Done None s3 ->
    retried_items d ctx queue rest s3 s' ->
    retried_items d ctx queue ((cu, K) :: rest) s s'.

End Run.

Arguments Done {CompilationUnit AnalysisOutput W A} a s.
Arguments OutOfFuel {CompilationUnit AnalysisOutput W A}.
Arguments Panic {CompilationUnit AnalysisOutput W A}.

(** ** A small world to run the driver in

    The world holds the compilations still queued and the number of times the
    analyzer will still ask for a retry. *)
Module Example.

Record World : Type := {
  queued : list (@Compilation string);
  retries : nat
}.

Definition cu1 : @Compilation string := {| Unit := "unit1"; Revision := "r1" |}.
Definition cu2 : @Compilation string := {| Unit := "unit2"; Revision := "r2" |}.

Definition start (cus : list (@Compilation string)) (n : nat) : @St string string World :=
  {| world := {| queued := cus; retries := n |}; calls := [] |}.

Definition queue : @Queue unit string World :=
  fun _ w => match queued w with
             | [] => (NoItem io_EOF, w)
             | cu :: rest => (Item cu, {| queued := rest; retries := retries w |})
             end.

(** Emits one output, then asks for a retry while [retries] is positive. *)
Definition analyzer : @CompilationAnalyzer unit string string World :=
  fun _ req w =>
    Emit (req_Compilation req) w
      (fun _ w' => match retries w' with
                   | 0 => Return None w'
                   | S n => Return (Some ErrRetry) {| queued := queued w'; retries := n |}
                   end).

(** Fails with an error of its own at once. *)
Definition failing_analyzer : @CompilationAnalyzer unit string string World :=
  fun _ _ w => Return (Some (errorString "parse error")) w.

Definition output : @OutputFunc unit string World := fun _ _ w => (None, w).
Definition hook_ok : @CompilationFunc unit string World := fun _ _ w => (None, w).
Definition hook_fails (msg : string) : @CompilationFunc unit string World :=
  fun _ _ w => (Some (errorString msg), w).
Definition hook_retry : @CompilationFunc unit string World :=
  fun _ _ w => (Some ErrRetry, w).
Definition suppress : @AnalysisErrorFunc unit string World := fun _ _ _ w => (None, w).

Definition driver : @Driver unit string string World :=
  {| Analyzer := Some analyzer; FileDataService := "fds";
     Setup := Some hook_ok; Output := Some output;
     Teardown := Some hook_ok; AnalysisError := None |}.

Definition driver_setup_fails : @Driver unit string string World :=
  {| Analyzer := Some analyzer; FileDataService := "fds";
     Setup := Some (hook_fails "boom"); Output := Some output;
     Teardown := Some hook_ok; AnalysisError := None |}.

Definition driver_setup_retry : @Driver unit string string World :=
  {| Analyzer := Some analyzer; FileDataService := "fds";
     Setup := Some hook_retry; Output := Some output;
     Teardown := Some hook_ok; AnalysisError := None |}.

Definition driver_suppress : @Driver unit string string World :=
  {| Analyzer := Some analyzer; FileDataService := "fds";
     Setup := None; Output := Some output;
     Teardown := None; AnalysisError := Some suppress |}.

Definition driver_teardown_fails (a : @CompilationAnalyzer unit string string World)
    : @Driver unit string string World :=
  {| Analyzer := Some a; FileDataService := "fds";
     Setup := None; Output := Some output;
     Teardown := Some (hook_fails "disk full"); AnalysisError := None |}.

Definition driver_unset : @Driver unit string string World :=
  {| Analyzer := None; FileDataService := "fds";
     Setup := Some hook_ok; Output := Some output;
     Teardown := Some hook_ok; AnalysisError := None |}.

Definition driver_no_output : @Driver unit string string World :=
  {| Analyzer := Some analyzer; FileDataService := "fds";
     Setup := Some hook_ok; Output := None;
     Teardown := Some hook_ok; AnalysisError := None |}.

(** Always fails with [io.EOF]. *)
Definition eof_analyzer : @CompilationAnalyzer unit string string World :=
  fun _ _ w => Return (Some io_EOF) w.

(** Always asks for a retry. *)
Definition stubborn_analyzer : @CompilationAnalyzer unit string string World :=
  fun _ _ w => Return (Some ErrRetry) w.

Definition driver_with (a : @CompilationAnalyzer unit string string World)
    : @Driver unit string string World :=
  {| Analyzer := Some a; FileDataService := "fds";
     Setup := Some hook_ok; Output := Some output;
     Teardown := Some hook_ok; AnalysisError := None |}.

Definition io : @IO unit string string World :=
  {| io_Setup := hook_ok; io_Output := output;
     io_Teardown := hook_fails "disk full"; io_AnalysisError := suppress |}.

(** A queue that fails with the retry sentinel itself. *)
Definition broken_queue : @Queue unit string World :=
  fun _ w => (NoItem ErrRetry, w).

End Example.

End Driver.

(* ===================================================================== *)
(** * Part II: kythe/cxx/extractor/bazel_artifact_selector.h               *)
(* ===================================================================== *)

Module Selector.

(** [absl::Status] *)
Inductive StatusCode : Type :=
| kOk | kInvalidArgument | kNotFound | kFailedPrecondition | kUnimplemented.

Record Status : Type := { code : StatusCode; message : string }.

Definition OkStatus : Status := {| code := kOk; message := "" |}.
Definition UnimplementedError (msg : string) : Status :=
  {| code := kUnimplemented; message := msg |}.
Definition InvalidArgumentError (msg : string) : Status :=
  {| code := kInvalidArgument; message := msg |}.
Definition FailedPreconditionError (msg : string) : Status :=
  {| code := kFailedPrecondition; message := msg |}.

(** Modelled from the spec: the files of a build event and of an artifact
    ([BazelArtifactFile], declared in bazel_artifact.h), each "{name, locator,
    optional symlink target}". *)
Record File : Type := {
  name : string;
  locator : string;
  symlink_target : option string
}.

(** Modelled from the spec: [build_event_stream::NamedSetOfFiles], the
    payload of the event of that name, an "ordered list of" files.  The data
    model of the spec gives a set no references to child sets, and the
    resolution of such references is left open there. *)
Record NamedSetOfFiles : Type := { files : list File }.

(** Modelled from the spec: [BazelArtifact] (declared in bazel_artifact.h),
    "{id: string, files: ordered list of ArtifactFile}"; the id is the label
    of the target the artifact is tagged with. *)
Record BazelArtifact : Type := {
  art_id : string;
  art_files : list File
}.

(** Modelled from the spec: [build_event_stream::BuildEvent], the sum
    "NamedSetOfFiles{id, files}; TargetCompleted{label, aspect, success,
    output_groups: mapping group-name to list of fileset ids};
    ActionCompleted{action_type, success, primary_output, label}; Other".  The
    output groups are kept in the order of the event. *)
Inductive BuildEvent : Type :=
| NamedSet (id : string) (payload : NamedSetOfFiles)
| TargetCompleted (label aspect : string) (success : bool)
    (output_groups : list (string * list string))
| ActionCompleted (action_type : string) (success : bool)
    (primary_output : File) (label : string)
| Other.

(** Modelled from the spec: the message
    [kythe.proto.BazelAspectArtifactSelectorState], "a uniquely-typed
    serialized payload with exactly three fields mirroring {disposed,
    filesets, pending}". *)
Record BazelAspectArtifactSelectorState : Type := {
  proto_disposed : list string;
  proto_filesets : list (string * NamedSetOfFiles);
  proto_pending : list (string * string)
}.

(** [google::protobuf::Any]: a type URL and a value, which either unpacks to
    the selector's state message or cannot be decoded as one. *)
Inductive AnyValue : Type :=
| Packed (m : BazelAspectArtifactSelectorState)
| Undecodable (bytes : string).

Record Any : Type := { type_url : string; value : AnyValue }.

(** [class BazelArtifactSelector]: the interface, the selector being passed
    and returned where the C++ method is not [const]. *)
Class BazelArtifactSelector (S : Type) : Type := {
  Select : BuildEvent -> S -> option BazelArtifact * S;
  SerializeInto : S -> Any -> bool * Any;
  DeserializeFrom : Any -> S -> Status * S
}.

(** The bodies the base class gives to its virtual methods:
    [SerializeInto(state) { return false; }] and
    [DeserializeFrom(state) { return absl::UnimplementedError("stateless selector"); }]. *)
Definition BazelArtifactSelector_SerializeInto {S : Type} (self : S) (state : Any) : bool * Any :=
  (false, state).

Definition BazelArtifactSelector_DeserializeFrom {S : Type} (state : Any) (self : S) : Status * S :=
  (UnimplementedError "stateless selector", self).

(** ** ExtraActionSelector *)

Record ExtraActionSelector : Type := {
  action_matches_ : string -> bool
}.

(** [explicit ExtraActionSelector(absl::flat_hash_set<std::string> action_types = {})]:
    "An empty set will select any successful action." *)
Definition ExtraActionSelector_new (action_types : gset string) : ExtraActionSelector :=
  {| action_matches_ := fun action_type =>
       bool_decide (action_types = ∅) || bool_decide (action_type ∈ action_types) |}.

(** Modelled from the spec: the body of [ExtraActionSelector::Select] (the
    header only declares it).  It "matches only successful ActionCompleted
    events whose action_type satisfies the configured predicate; produces an
    Artifact from the primary output and label". *)
Definition ExtraActionSelector_Select (event : BuildEvent) (self : ExtraActionSelector)
    : option BazelArtifact * ExtraActionSelector :=
  match event with
  | ActionCompleted action_type true primary_output label =>
      if action_matches_ self action_type
      then (Some {| art_id := label; art_files := [primary_output] |}, self)
      else (None, self)
  | _ => (None, self)
  end.

(** [class ExtraActionSelector final : public BazelArtifactSelector] overrides
    [Select] only. *)
#[global] Instance ExtraActionSelector_selector : BazelArtifactSelector ExtraActionSelector := {
  Select := ExtraActionSelector_Select;
  SerializeInto := BazelArtifactSelector_SerializeInto;
  DeserializeFrom := BazelArtifactSelector_DeserializeFrom
}.

(** ** AspectArtifactSelector *)

(** Modelled from the spec: [RegexSet] (declared in kythe/cxx/common/regex.h),
    "a set of patterns", by the names it matches. *)
Definition RegexSet : Type := string -> bool.

(** [struct AspectArtifactSelectorOptions] *)
Record AspectArtifactSelectorOptions : Type := {
  file_name_allowlist : RegexSet;
  output_group_allowlist : RegexSet;
  target_aspect_allowlist : RegexSet
}.

(** [struct State] of [AspectArtifactSelector]. *)
Record State : Type := {
  disposed : gset string;                    (* the NamedSetOfFiles events processed *)
  filesets : gmap string NamedSetOfFiles;    (* matched, not yet consumed by an event *)
  pending : gmap string string               (* fileset id to the target that required it *)
}.

Definition State_empty : State := {| disposed := ∅; filesets := ∅; pending := ∅ |}.

Record AspectArtifactSelector : Type := {
  options_ : AspectArtifactSelectorOptions;
  state_ : State
}.

(** [explicit AspectArtifactSelector(Options options)] *)
Definition AspectArtifactSelector_new (options : AspectArtifactSelectorOptions)
    : AspectArtifactSelector :=
  {| options_ := options; state_ := State_empty |}.

Definition with_state (self : AspectArtifactSelector) (st : State) : AspectArtifactSelector :=
  {| options_ := options_ self; state_ := st |}.

(** Modelled from the spec: "filter files to those whose name matches
    file_name_allowlist". *)
Definition filter_files (options : AspectArtifactSelectorOptions) (fs : NamedSetOfFiles)
    : NamedSetOfFiles :=
  {| files := List.filter (fun f => file_name_allowlist options (name f)) (files fs) |}.

(** Modelled from the spec: the body of [AspectArtifactSelector::SelectFileSet]
    (the header only declares it).  "On NamedSetOfFiles{id, files}: if id is in
    disposed, ignore, return none.  Filter files to those whose name matches
    file_name_allowlist.  If id is in pending: remove from pending, add id to
    disposed, assemble and return an Artifact from the filtered files tagged
    with the claiming target's label.  Otherwise store the filtered set under
    filesets[id] and return none." *)
Definition SelectFileSet (id : string) (fileset : NamedSetOfFiles)
    (self : AspectArtifactSelector) : option BazelArtifact * AspectArtifactSelector :=
  let st := state_ self in
  if decide (id ∈ disposed st) then (None, self)
  else
    let filtered := filter_files (options_ self) fileset in
    match pending st !! id with
    | Some target =>
        (Some {| art_id := target; art_files := files filtered |},
         with_state self {| disposed := {[id]} ∪ disposed st;
                            filesets := filesets st;
                            pending := delete id (pending st) |})
    | None =>
        (None,
         with_state self {| disposed := disposed st;
                            filesets := <[id := filtered]> (filesets st);
                            pending := pending st |})
    end.

(** Modelled from the spec: what [SelectTargetCompleted] does with one
    fileset id [F] of a qualifying output group.  "If F is in disposed, skip.
    If F is in filesets, remove it, add F to disposed, assemble an Artifact
    from its filtered files tagged with label.  If F is in neither set, record
    pending[F] = label." *)
Definition resolve (label : string) (F : string) (st : State) : option BazelArtifact * State :=
  if decide (F ∈ disposed st) then (None, st)
  else
    match filesets st !! F with
    | Some fs =>
        (Some {| art_id := label; art_files := files fs |},
         {| disposed := {[F]} ∪ disposed st;
            filesets := delete F (filesets st);
            pending := pending st |})
    | None =>
        (None,
         {| disposed := disposed st;
            filesets := filesets st;
            pending := <[F := label]> (pending st) |})
    end.

(** Modelled from the spec: every id is resolved in turn, and the artifact of
    the first resolution is the one returned ("remaining qualifying ids in the
    same call are still marked disposed and have artifacts constructed for
    them by the same resolution path but only the first is returned"). *)
Fixpoint resolve_all (label : string) (ids : list string) (st : State)
    : option BazelArtifact * State :=
  match ids with
  | [] => (None, st)
  | F :: rest =>
      let '(first, st1) := resolve label F st in
      let '(later, st2) := resolve_all label rest st1 in
      (match first with Some a => Some a | None => later end, st2)
  end.

(** Modelled from the spec: the "qualifying" output groups, whose name
    matches [output_group_allowlist], and the fileset ids they reference, in
    order. *)
Definition qualifying_groups (options : AspectArtifactSelectorOptions)
    (output_groups : list (string * list string)) : list (string * list string) :=
  List.filter (fun g => output_group_allowlist options (fst g)) output_groups.

Definition qualifying_ids (options : AspectArtifactSelectorOptions)
    (output_groups : list (string * list string)) : list string :=
  flat_map snd (qualifying_groups options output_groups).

(** Modelled from the spec: the body of
    [AspectArtifactSelector::SelectTargetCompleted] (the header only declares
    it).  "Ignore (return none, no state change) if success is false, or
    aspect fails target_aspect_allowlist, or none of the output group names
    match output_group_allowlist.  Otherwise, for each qualifying output group,
    for each fileset id F it references: ..." *)
Definition SelectTargetCompleted (label aspect : string) (success : bool)
    (output_groups : list (string * list string)) (self : AspectArtifactSelector)
    : option BazelArtifact * AspectArtifactSelector :=
  if negb success then (None, self)
  else if negb (target_aspect_allowlist (options_ self) aspect) then (None, self)
  else
    match qualifying_groups (options_ self) output_groups with
    | [] => (None, self)
    | _ :: _ =>
        let '(result, st) :=
          resolve_all label (qualifying_ids (options_ self) output_groups) (state_ self) in
        (result, with_state self st)
    end.

(** Modelled from the spec: the body of [AspectArtifactSelector::Select] (the
    header only declares it): the two events above are dispatched, and "any
    other event kind ... never produces output". *)
Definition AspectArtifactSelector_Select (event : BuildEvent) (self : AspectArtifactSelector)
    : option BazelArtifact * AspectArtifactSelector :=
  match event with
  | NamedSet id payload => SelectFileSet id payload self
  | TargetCompleted label aspect success output_groups =>
      SelectTargetCompleted label aspect success output_groups self
  | ActionCompleted _ _ _ _ => (None, self)
  | Other => (None, self)
  end.

(** Modelled from the spec: the type URL under which an [Any] holds a
    [kythe.proto.BazelAspectArtifactSelectorState]. *)
Definition kStateTypeUrl : string :=
  "type.googleapis.com/kythe.proto.BazelAspectArtifactSelectorState".

(** Modelled from the spec: the state as its message, each container listed in
    its iteration order, and back. *)
Definition State_to_proto (st : State) : BazelAspectArtifactSelectorState :=
  {| proto_disposed := elements (disposed st);
     proto_filesets := map_to_list (filesets st);
     proto_pending := map_to_list (pending st) |}.

Definition State_of_proto (m : BazelAspectArtifactSelectorState) : State :=
  {| disposed := list_to_set (proto_disposed m);
     filesets := list_to_map (proto_filesets m);
     pending := list_to_map (proto_pending m) |}.

(** Modelled from the spec: the body of [AspectArtifactSelector::SerializeInto]
    (the header only declares it).  It "encodes {disposed, filesets, pending}
    into a uniquely typed payload; always succeeds, even when all three are
    empty". *)
Definition AspectArtifactSelector_SerializeInto (self : AspectArtifactSelector) (state : Any)
    : bool * Any :=
  (true, {| type_url := kStateTypeUrl; value := Packed (State_to_proto (state_ self)) |}).

(** Modelled from the spec: the body of
    [AspectArtifactSelector::DeserializeFrom] (the header only declares it).
    It "type-checks the payload before replacing internal state atomically
    (either fully replaced or left untouched on error)"; it signals "invalid"
    if the payload's type matches but cannot be decoded, "failed-precondition"
    if the payload is of a different type. *)
Definition AspectArtifactSelector_DeserializeFrom (state : Any) (self : AspectArtifactSelector)
    : Status * AspectArtifactSelector :=
  if decide (type_url state = kStateTypeUrl) then
    match value state with
    | Packed m => (OkStatus, with_state self (State_of_proto m))
    | Undecodable _ => (InvalidArgumentError "malformed selector state", self)
    end
  else (FailedPreconditionError "state of another type", self).

#[global] Instance AspectArtifactSelector_selector : BazelArtifactSelector AspectArtifactSelector := {
  Select := AspectArtifactSelector_Select;
  SerializeInto := AspectArtifactSelector_SerializeInto;
  DeserializeFrom := AspectArtifactSelector_DeserializeFrom
}.

(** ** AnyArtifactSelector *)

(** [class AnyArtifactSelector final]: holds a selector of any class derived
    from [BazelArtifactSelector] and forwards the three methods to it. *)
Record AnyArtifactSelector : Type := {
  held_class : Type;
  held_impl : BazelArtifactSelector held_class;
  get_ : held_class
}.

Definition AnyArtifactSelector_of {S : Type} `{BazelArtifactSelector S} (s : S)
    : AnyArtifactSelector :=
  {| held_class := S; held_impl := _; get_ := s |}.

Definition AnyArtifactSelector_Select (event : BuildEvent) (self : AnyArtifactSelector)
    : option BazelArtifact * AnyArtifactSelector :=
  let '(r, s) := @Select _ (held_impl self) event (get_ self) in
  (r, {| held_class := held_class self; held_impl := held_impl self; get_ := s |}).

Definition AnyArtifactSelector_SerializeInto (self : AnyArtifactSelector) (state : Any)
    : bool * Any :=
  @SerializeInto _ (held_impl self) (get_ self) state.

Definition AnyArtifactSelector_DeserializeFrom (state : Any) (self : AnyArtifactSelector)
    : Status * AnyArtifactSelector :=
  let '(r, s) := @DeserializeFrom _ (held_impl self) state (get_ self) in
  (r, {| held_class := held_class self; held_impl := held_impl self; get_ := s |}).

#[global] Instance AnyArtifactSelector_selector : BazelArtifactSelector AnyArtifactSelector := {
  Select := AnyArtifactSelector_Select;
  SerializeInto := AnyArtifactSelector_SerializeInto;
  DeserializeFrom := AnyArtifactSelector_DeserializeFrom
}.

(** [Select] called once per event, in stream order: the outputs, and the
    selector afterwards. *)
Fixpoint select_all {S : Type} `{BazelArtifactSelector S} (events : list BuildEvent) (s : S)
    : list (option BazelArtifact) * S :=
  match events with
  | [] => ([], s)
  | e :: rest =>
      let '(r, s1) := Select e s in
      let '(rs, s2) := select_all rest s1 in
      (r :: rs, s2)
  end.

(** ** A small stream: one fileset and the target that owns it *)
Module Example.

Definition options : AspectArtifactSelectorOptions :=
  {| file_name_allowlist := fun n => bool_decide (n = "out/foo.kzip");
     output_group_allowlist := fun g => bool_decide (g = "g");
     target_aspect_allowlist := fun _ => true |}.

Definition foo_kzip : File :=
  {| name := "out/foo.kzip"; locator := "file:///out/foo.kzip"; symlink_target := None |}.
Definition foo_log : File :=
  {| name := "out/foo.log"; locator := "file:///out/foo.log"; symlink_target := None |}.

Definition fs1 : NamedSetOfFiles := {| files := [foo_kzip; foo_log] |}.

Definition groups : list (string * list string) :=
  [("default", ["fs0"]); ("g", ["fs1"])].

Definition fileset_event : BuildEvent := NamedSet "fs1" fs1.
Definition target_event : BuildEvent := TargetCompleted "//x:y" "kythe" true groups.

End Example.

End Selector.

(* ===================================================================== *)
(** * Part III: properties of the driver                                  *)
(* ===================================================================== *)

Module DriverSpec.
Import Driver.

Section Facts.

Context {Ctx CompilationUnit AnalysisOutput W : Type}.

Local Abbreviation Compilation := (@Compilation CompilationUnit).
Local Abbreviation Call := (@Call CompilationUnit AnalysisOutput).
Local Abbreviation St := (@St CompilationUnit AnalysisOutput W).
Local Abbreviation Driver := (@Driver Ctx CompilationUnit AnalysisOutput W).
Local Abbreviation Queue := (@Queue Ctx CompilationUnit W).
Local Abbreviation M := (@M CompilationUnit AnalysisOutput W).

Implicit Types (d : Driver) (ctx : Ctx) (cu : Compilation) (s : St)
  (queue : Queue) (err : option error) (e : error) (l seg : list Call).

(** ** The monad *)

Lemma bind_Done {A B} (m : M A) (k : A -> M B) s a s1 :
  m s = Done a s1 -> bind m k s = k a s1.
Proof. intros H. unfold bind. now rewrite H. Qed.

Lemma bind_inv {A B} (m : M A) (k : A -> M B) s b s2 :
  bind m k s = Done b s2 -> exists a s1, m s = Done a s1 /\ k a s1 = Done b s2.
Proof.
  unfold bind. destruct (m s) as [a s1| |]; intros H; try discriminate.
  now exists a, s1.
Qed.

(** ** Projections of the log *)

Lemma analyze_calls_app l1 l2 :
  analyze_calls (l1 ++ l2) = analyze_calls l1 ++ analyze_calls l2.
Proof. apply flat_map_app. Qed.

Lemma teardown_calls_app l1 l2 :
  teardown_calls (l1 ++ l2) = teardown_calls l1 ++ teardown_calls l2.
Proof. apply flat_map_app. Qed.

Lemma setup_calls_app l1 l2 :
  setup_calls (l1 ++ l2) = setup_calls l1 ++ setup_calls l2.
Proof. apply flat_map_app. Qed.

Lemma analyze_calls_outputs (os : list AnalysisOutput) :
  analyze_calls (map CallOutput os : list Call) = [].
Proof. induction os as [|o os IH]; [reflexivity | exact IH]. Qed.

Lemma teardown_calls_outputs (os : list AnalysisOutput) :
  teardown_calls (map CallOutput os : list Call) = [].
Proof. induction os as [|o os IH]; [reflexivity | exact IH]. Qed.

(** ** One analyzer call only adds its own call and the outputs it emits *)

Lemma run_analysis_calls out ctx (a : Analysis) :
  forall l r s', run_analysis out ctx a l = Done r s' ->
    exists os, calls s' = l ++ map CallOutput os.
Proof.
  induction a as [r0 w|o w k IH]; intros l r s' H; simpl in H.
  - injection H as _ <-. exists []. simpl. now rewrite app_nil_r.
  - destruct out as [f|]; [|discriminate].
    destruct (f ctx o w) as [e w'].
    apply IH in H as [os Hos].
    exists (o :: os). rewrite Hos, <- app_assoc. reflexivity.
Qed.

Lemma Analyze_calls a ctx req out s r s' :
  Analyze a ctx req out s = Done r s' ->
  exists os, calls s' = calls s ++ CallAnalyze req :: map CallOutput os.
Proof.
  unfold Analyze. destruct a as [an|]; [|discriminate].
  intros H. apply run_analysis_calls in H as [os Hos].
  exists os. rewrite Hos, <- app_assoc. reflexivity.
Qed.

Lemma invoke_calls {A} (c : Call) (f : W -> A * W) s a s' :
  invoke c f s = Done a s' -> f (world s) = (a, world s') /\ calls s' = calls s ++ [c].
Proof.
  unfold invoke. destruct (f (world s)) as [a0 w]. intros H.
  injection H as <- <-. split; reflexivity.
Qed.

(** ** The retry loop *)

Lemma is_ErrRetry_false err : err <> Some ErrRetry -> is_ErrRetry err = false.
Proof. intros H. unfold is_ErrRetry. now apply bool_decide_eq_false. Qed.

Lemma retry_loop_enter fuel d ctx cu :
  retry_loop (S fuel) d ctx cu (Some ErrRetry)
  = bind (attempt d ctx cu) (retry_loop fuel d ctx cu).
Proof. reflexivity. Qed.

Lemma retry_loop_exit fuel d ctx cu err s :
  err <> Some ErrRetry -> retry_loop fuel d ctx cu err s = Done err s.
Proof.
  intros H. destruct fuel; simpl; now rewrite (is_ErrRetry_false _ H).
Qed.

Lemma retry_loop_step fuel d ctx cu s err s1 :
  attempt d ctx cu s = Done err s1 ->
  retry_loop (S fuel) d ctx cu (Some ErrRetry) s
  = if is_ErrRetry err then retry_loop fuel d ctx cu (Some ErrRetry) s1 else Done err s1.
Proof.
  intros H. rewrite retry_loop_enter, (bind_Done _ _ _ _ _ H).
  destruct (decide (err = Some ErrRetry)) as [->|Hne]; [reflexivity|].
  rewrite (is_ErrRetry_false _ Hne). now apply retry_loop_exit.
Qed.

Lemma attempt_no_hook d ctx cu s :
  AnalysisError d = None ->
  attempt d ctx cu s = Analyze (Analyzer d) ctx (request d cu) (Output d) s.
Proof.
  intros H. unfold attempt, bind. rewrite H.
  destruct (Analyze _ _ _ _ s) as [a s'| |]; reflexivity.
Qed.

Lemma attempt_calls d ctx cu s err s' :
  attempt d ctx cu s = Done err s' ->
  exists seg, calls s' = calls s ++ CallAnalyze (request d cu) :: seg
              /\ analyze_calls seg = [] /\ teardown_calls seg = [].
Proof.
  unfold attempt. intros H. apply bind_inv in H as (ar & s1 & Ha & Hk).
  apply Analyze_calls in Ha as [os Hos].
  destruct (AnalysisError d) as [hook|], ar as [e|];
    try (injection Hk as <- <-; exists (map CallOutput os);
         rewrite analyze_calls_outputs, teardown_calls_outputs; now auto).
  apply invoke_calls in Hk as [_ Hc].
  exists (map CallOutput os ++ [CallAnalysisError cu e]).
  rewrite Hc, Hos, <- app_assoc, analyze_calls_app, teardown_calls_app,
    analyze_calls_outputs, teardown_calls_outputs. auto.
Qed.

Lemma retry_loop_counts d ctx cu :
  AnalysisError d = None ->
  forall K fuel s, K < fuel -> analyzer_retries K d ctx cu s ->
    exists s' seg,
      retry_loop fuel d ctx cu (Some ErrRetry) s = Done None s'
      /\ calls s' = calls s ++ seg
      /\ analyze_calls seg = replicate (S K) (request d cu)
      /\ teardown_calls seg = [].
Proof.
  intros Hhook. induction K as [|K IH]; intros fuel s Hlt HK;
    (destruct fuel as [|fuel]; [lia|]).
  - destruct HK as [s' Ha].
    assert (Hat : attempt d ctx cu s = Done None s') by now rewrite attempt_no_hook.
    destruct (attempt_calls _ _ _ _ _ _ Hat) as (seg & Hc & Hn & Ht).
    exists s', (CallAnalyze (request d cu) :: seg).
    rewrite (retry_loop_step _ _ _ _ _ _ _ Hat). simpl.
    rewrite Hn, Ht. auto.
  - destruct HK as (s1 & Ha & HK).
    assert (Hat : attempt d ctx cu s = Done (Some ErrRetry) s1) by now rewrite attempt_no_hook.
    destruct (attempt_calls _ _ _ _ _ _ Hat) as (seg & Hc & Hn & Ht).
    destruct (IH fuel s1 ltac:(lia) HK) as (s' & seg' & Hr & Hc' & Hn' & Ht').
    exists s', ((CallAnalyze (request d cu) :: seg) ++ seg').
    rewrite (retry_loop_step _ _ _ _ _ _ _ Hat). simpl is_ErrRetry. cbv iota.
    split; [exact Hr|]. split; [now rewrite Hc', Hc, <- app_assoc|].
    rewrite analyze_calls_app, teardown_calls_app. simpl.
    rewrite Hn, Ht, Hn', Ht'. auto.
Qed.

(** ** Setup *)

Lemma setup_phase_fails d ctx cu (setup : CompilationFunc) e w s :
  Setup d = Some setup ->
  setup ctx cu (world s) = (Some e, w) ->
  setup_phase d ctx cu s = Done (Some e) {| world := w; calls := calls s ++ [CallSetup cu] |}.
Proof. intros Hs Hr. unfold setup_phase, invoke. now rewrite Hs, Hr. Qed.

Lemma length_append (a b : string) :
  String.length (a +:+ b) = String.length a + String.length b.
Proof. induction a as [|c a IH]; simpl; [reflexivity | now rewrite IH]. Qed.

Lemma fmt_Errorf_fresh (prefix : string) e :
  prefix <> "" -> fmt_Errorf prefix e <> e.
Proof.
  intros Hp. unfold fmt_Errorf. destruct e as [| |msg]; try discriminate.
  simpl. intros [= H]. apply Hp.
  apply (f_equal String.length) in H. rewrite length_append in H.
  destruct prefix; [reflexivity | simpl in H; lia].
Qed.

(** C1 (amended).  When the configured Setup hook returns a non-nil error for
    a compilation, the callback returns at once: its result is the setup error
    ([fmt.Errorf("analysis setup error: %v", err)]), and Setup is the only call
    made for the item; neither the analyzer nor the Teardown hook is invoked,
    whatever the driver has configured for them. *)
Theorem setup_failure_abandons_item d ctx cu fuel (setup : CompilationFunc) e w s :
  Setup d = Some setup ->
  setup ctx cu (world s) = (Some e, w) ->
  handle fuel d ctx cu s
  = Done (Some (fmt_Errorf "analysis setup error: " e))
         {| world := w; calls := calls s ++ [CallSetup cu] |}
  /\ analyze_calls [CallSetup cu : Call] = []
  /\ teardown_calls [CallSetup cu : Call] = [].
Proof.
  intros Hs Hr. split; [|split; reflexivity].
  unfold handle. now rewrite (bind_Done _ _ _ _ _ (setup_phase_fails _ _ _ _ _ _ _ Hs Hr)).
Qed.

(** C10.  The value reported for an item whose Setup hook failed with [e] is a
    new error whose message is "analysis setup error: " followed by the
    message of [e]; it is never [e] itself, nor the retry sentinel.  So when
    Setup returns [ErrRetry], nothing is retried: Setup has been called once,
    the analyzer not at all, and the wrapped error is the result. *)
Theorem setup_error_is_rewrapped d ctx cu fuel (setup : CompilationFunc) e w s :
  Setup d = Some setup ->
  setup ctx cu (world s) = (Some e, w) ->
  exists e' s' seg,
    handle fuel d ctx cu s = Done (Some e') s'
    /\ Error e' = "analysis setup error: " +:+ Error e
    /\ e' <> e /\ e' <> ErrRetry
    /\ (e = ErrRetry -> e' = errorString "analysis setup error: retry analysis")
    /\ calls s' = calls s ++ seg
    /\ setup_calls seg = [cu] /\ analyze_calls seg = [].
Proof.
  intros Hs Hr.
  exists (fmt_Errorf "analysis setup error: " e),
    {| world := w; calls := calls s ++ [CallSetup cu] |}, [CallSetup cu].
  split.
  { unfold handle.
    now rewrite (bind_Done _ _ _ _ _ (setup_phase_fails _ _ _ _ _ _ _ Hs Hr)). }
  split; [reflexivity|]. split; [now apply fmt_Errorf_fresh|].
  split; [discriminate|]. split; [now intros ->|]. auto.
Qed.

(** ** Teardown *)

(** C3.  Let the retry loop of an item end with [err] (the analyzer's result,
    or what the AnalysisError hook put in its place) and let the Teardown hook
    fail with [tErr].  If [err] is an error, it is the item's result and the
    teardown failure is only logged as a warning; if [err] is nil, the item's
    result is the teardown error
    ([fmt.Errorf("analysis teardown error: %v", tErr)]). *)
Theorem analysis_error_masks_teardown_error d ctx cu fuel (teardown : CompilationFunc)
    s s1 s2 err tErr w :
  setup_phase d ctx cu s = Done None s1 ->
  retry_loop fuel d ctx cu (Some ErrRetry) s1 = Done err s2 ->
  Teardown d = Some teardown ->
  teardown ctx cu (world s2) = (Some tErr, w) ->
  handle fuel d ctx cu s
  = match err with
    | Some e =>
        Done (Some e)
          {| world := w;
             calls := calls s2 ++
               [CallTeardown cu;
                CallLogPrintf
                  ("WARNING: analysis teardown error after analysis error: "
                     +:+ Error tErr +:+ " (analysis error: " +:+ Error e +:+ ")")] |}
    | None =>
        Done (Some (fmt_Errorf "analysis teardown error: " tErr))
          {| world := w; calls := calls s2 ++ [CallTeardown cu] |}
    end.
Proof.
  intros Hsetup Hloop Ht Hr. unfold handle.
  rewrite (bind_Done _ _ _ _ _ Hsetup). rewrite (bind_Done _ _ _ _ _ Hloop).
  unfold teardown_phase. rewrite Ht. unfold bind, invoke. rewrite Hr.
  destruct err as [e|]; [|reflexivity].
  unfold log_Printf, ret. cbn [calls world]. now rewrite <- app_assoc.
Qed.

(** ** Every phase only appends to the log *)

Lemma setup_phase_calls d ctx cu s err s' :
  setup_phase d ctx cu s = Done err s' ->
  exists seg, calls s' = calls s ++ seg
              /\ analyze_calls seg = [] /\ teardown_calls seg = [].
Proof.
  unfold setup_phase. destruct (Setup d) as [setup|]; intros H.
  - apply invoke_calls in H as [_ H]. now exists [CallSetup cu].
  - injection H as _ <-. exists []. now rewrite app_nil_r.
Qed.

Lemma retry_loop_calls d ctx cu fuel :
  forall err s r s', retry_loop fuel d ctx cu err s = Done r s' ->
    exists seg, calls s' = calls s ++ seg.
Proof.
  induction fuel as [|fuel IH]; intros err s r s' H; simpl in H;
    destruct (is_ErrRetry err);
    try discriminate;
    try (injection H as _ <-; exists []; now rewrite app_nil_r).
  apply bind_inv in H as (err' & s1 & Ha & Hk).
  apply attempt_calls in Ha as (seg & Hc & _).
  apply IH in Hk as [seg' Hc'].
  exists ((CallAnalyze (request d cu) :: seg) ++ seg').
  now rewrite Hc', Hc, <- app_assoc.
Qed.

Lemma retry_loop_calls_analyzer_first d ctx cu fuel s r s' :
  retry_loop (S fuel) d ctx cu (Some ErrRetry) s = Done r s' ->
  exists rest, calls s' = calls s ++ CallAnalyze (request d cu) :: rest.
Proof.
  rewrite retry_loop_enter. intros H.
  apply bind_inv in H as (err' & s1 & Ha & Hk).
  apply attempt_calls in Ha as (seg & Hc & _).
  apply retry_loop_calls in Hk as [seg' Hc'].
  exists (seg ++ seg'). now rewrite Hc', Hc, <- app_assoc.
Qed.

Lemma teardown_phase_calls d ctx cu err s r s' :
  teardown_phase d ctx cu err s = Done r s' ->
  exists seg, calls s' = calls s ++ seg.
Proof.
  unfold teardown_phase. destruct (Teardown d) as [teardown|]; intros H.
  - apply bind_inv in H as (tErr & s1 & Hi & Hk).
    apply invoke_calls in Hi as [_ Hc].
    destruct tErr as [te|], err as [e|];
      try (injection Hk as _ <-; now exists [CallTeardown cu]).
    unfold bind, log_Printf, ret in Hk. injection Hk as _ <-.
    exists [CallTeardown cu; CallLogPrintf
      ("WARNING: analysis teardown error after analysis error: "
         +:+ Error te +:+ " (analysis error: " +:+ Error e +:+ ")")].
    cbn [calls]. now rewrite Hc, <- app_assoc.
  - injection H as _ <-. exists []. now rewrite app_nil_r.
Qed.

Lemma handle_calls fuel d ctx cu s r s' :
  handle fuel d ctx cu s = Done r s' -> exists seg, calls s' = calls s ++ seg.
Proof.
  unfold handle. intros H. apply bind_inv in H as (sErr & s1 & Hs & Hk).
  apply setup_phase_calls in Hs as (seg1 & Hc1 & _).
  destruct sErr as [e|].
  - injection Hk as _ <-. now exists seg1.
  - apply bind_inv in Hk as (err & s2 & Hl & Ht).
    apply retry_loop_calls in Hl as [seg2 Hc2].
    apply teardown_phase_calls in Ht as [seg3 Hc3].
    exists (seg1 ++ seg2 ++ seg3). now rewrite Hc3, Hc2, Hc1, <- !app_assoc.
Qed.

Lemma Next_calls fuel d ctx queue s r s' :
  Next queue ctx (handle fuel d) s = Done r s' ->
  exists seg, calls s' = calls s ++ CallNext :: seg.
Proof.
  unfold Next. destruct (queue ctx (world s)) as [[cu|e] w]; intros H.
  - apply handle_calls in H as [seg Hc]. exists seg.
    rewrite Hc. cbn [calls]. now rewrite <- app_assoc.
  - injection H as _ <-. now exists [].
Qed.

Lemma run_loop_calls inner d ctx queue fuel :
  forall s r s', run_loop inner fuel d ctx queue s = Done r s' ->
    exists seg, calls s' = calls s ++ CallNext :: seg.
Proof.
  induction fuel as [|fuel IH]; intros s r s' H; [discriminate|].
  simpl in H. apply bind_inv in H as (err & s1 & Hn & Hk).
  apply Next_calls in Hn as [seg Hc].
  destruct (is_EOF err); [injection Hk as _ <-; now exists seg|].
  destruct err as [e|]; [injection Hk as _ <-; now exists seg|].
  apply IH in Hk as [seg' Hc'].
  exists (seg ++ CallNext :: seg'). rewrite Hc', Hc, <- app_assoc. reflexivity.
Qed.

Lemma run_loop_step inner fuel d ctx queue s err s1 :
  Next queue ctx (handle inner d) s = Done err s1 ->
  run_loop inner (S fuel) d ctx queue s
  = match err with
    | Some e => Done (if decide (e = io_EOF) then None else Some e) s1
    | None => run_loop inner fuel d ctx queue s1
    end.
Proof.
  intros H. simpl. rewrite (bind_Done _ _ _ _ _ H).
  destruct err as [e|]; [|reflexivity].
  unfold is_EOF. destruct (decide (e = io_EOF)) as [->|Hne]; [reflexivity|].
  rewrite bool_decide_eq_false_2; [reflexivity | congruence].
Qed.

(** ** The retry policy *)

(** C2 (amended).  After each call of the analyzer on a compilation: a nil
    result ends the loop; the AnalysisError hook, when one is configured, is
    applied to every non-nil result, the retry sentinel included, and what it
    returns replaces the result; the analyzer is called again on the same
    compilation exactly when the result, after this replacement, is the retry
    sentinel.  So an analyzer result of [ErrRetry] is retried at once when no
    hook is configured, and otherwise only if the hook returns [ErrRetry]. *)
Theorem retry_is_decided_after_the_hook d ctx cu fuel s ar s1 :
  Analyze (Analyzer d) ctx (request d cu) (Output d) s = Done ar s1 ->
  (ar = None ->
     retry_loop (S fuel) d ctx cu (Some ErrRetry) s = Done None s1)
  /\ (AnalysisError d = None ->
        retry_loop (S fuel) d ctx cu (Some ErrRetry) s
        = if is_ErrRetry ar then retry_loop fuel d ctx cu (Some ErrRetry) s1
          else Done ar s1)
  /\ (forall (hook : AnalysisErrorFunc) e r w,
        AnalysisError d = Some hook -> ar = Some e ->
        hook ctx cu e (world s1) = (r, w) ->
        retry_loop (S fuel) d ctx cu (Some ErrRetry) s
        = let s2 := {| world := w; calls := calls s1 ++ [CallAnalysisError cu e] |} in
          if is_ErrRetry r then retry_loop fuel d ctx cu (Some ErrRetry) s2
          else Done r s2)
  /\ (forall s2 r s', retry_loop (S fuel) d ctx cu (Some ErrRetry) s2 = Done r s' ->
        exists rest, calls s' = calls s2 ++ CallAnalyze (request d cu) :: rest).
Proof.
  intros Ha. repeat split.
  - intros ->.
    assert (Hat : attempt d ctx cu s = Done None s1).
    { unfold attempt. rewrite (bind_Done _ _ _ _ _ Ha). now destruct (AnalysisError d). }
    now rewrite (retry_loop_step _ _ _ _ _ _ _ Hat).
  - intros Hh. apply retry_loop_step. now rewrite attempt_no_hook.
  - intros hook e r w Hh -> Hr. cbv zeta. apply retry_loop_step. unfold attempt.
    rewrite (bind_Done _ _ _ _ _ Ha), Hh. unfold invoke. now rewrite Hr.
  - intros s2 r s'. apply retry_loop_calls_analyzer_first.
Qed.

(** C4.  Let a compilation be fetched from the queue by a driver with no
    AnalysisError hook and with a Teardown hook, let Setup (if any) succeed,
    and let the analyzer return the retry sentinel exactly [K] times and then
    succeed.  Then, with more than [K] iterations allowed, the [Next] call
    returns, and in the calls made for the item the analyzer is invoked
    exactly [K+1] times, each time on the request built from this compilation,
    and Teardown exactly once.  These calls are the stretch of the log of
    [Run]'s loop between this [Next] call and the following one. *)
Theorem retry_counting d ctx queue cu (teardown : CompilationFunc) K fuel s w s1 :
  AnalysisError d = None ->
  Teardown d = Some teardown ->
  queue ctx (world s) = (Item cu, w) ->
  setup_phase d ctx cu {| world := w; calls := calls s ++ [CallNext] |} = Done None s1 ->
  analyzer_retries K d ctx cu s1 ->
  K < fuel ->
  exists r s' seg,
    Next queue ctx (handle fuel d) s = Done r s'
    /\ calls s' = calls s ++ CallNext :: seg
    /\ analyze_calls seg = replicate (S K) (request d cu)
    /\ teardown_calls seg = [cu]
    /\ (forall n r' s'', run_loop fuel (S n) d ctx queue s = Done r' s'' ->
          exists rest, calls s'' = calls s ++ CallNext :: seg ++ rest
                       /\ (rest = [] \/ exists rest', rest = CallNext :: rest')).
Proof.
  intros Hh Ht Hq Hs HK Hlt.
  enough (Hitem : exists r s' seg,
    Next queue ctx (handle fuel d) s = Done r s'
    /\ calls s' = calls s ++ CallNext :: seg
    /\ analyze_calls seg = replicate (S K) (request d cu)
    /\ teardown_calls seg = [cu]).
  { destruct Hitem as (r & s' & seg & Hn & Hc & Ha & Htd).
    exists r, s', seg. repeat (split; [assumption|]).
    intros n r' s'' Hrun. rewrite (run_loop_step _ _ _ _ _ _ _ _ Hn) in Hrun.
    destruct r as [e|].
    - injection Hrun as _ <-. exists []. rewrite app_nil_r. auto.
    - apply run_loop_calls in Hrun as [seg' Hc'].
      exists (CallNext :: seg'). split; [|eauto].
      rewrite Hc', Hc, <- app_assoc. reflexivity. }
  destruct (setup_phase_calls _ _ _ _ _ _ Hs) as (seg0 & Hc0 & Hn0 & Ht0).
  destruct (retry_loop_counts d ctx cu Hh K fuel s1 Hlt HK)
    as (s2 & seg1 & Hl & Hc1 & Hn1 & Ht1).
  destruct (teardown ctx cu (world s2)) as [tErr w3] eqn:Htd.
  exists (match tErr with
          | Some te => Some (fmt_Errorf "analysis teardown error: " te)
          | None => None
          end),
    {| world := w3; calls := calls s2 ++ [CallTeardown cu] |},
    (seg0 ++ seg1 ++ [CallTeardown cu]).
  split.
  { unfold Next. rewrite Hq. unfold handle.
    rewrite (bind_Done _ _ _ _ _ Hs). rewrite (bind_Done _ _ _ _ _ Hl).
    unfold teardown_phase. rewrite Ht. unfold bind, invoke. rewrite Htd.
    now destruct tErr. }
  split.
  { cbn [calls]. rewrite Hc1, Hc0. cbn [calls]. now rewrite <- !app_assoc. }
  rewrite !analyze_calls_app, !teardown_calls_app, Hn0, Ht0, Hn1, Ht1.
  simpl. now rewrite app_nil_r.
Qed.

(** ** The outer loop *)

Lemma validate_None d :
  validate d = None <-> Analyzer d <> None /\ Output d <> None.
Proof.
  unfold validate, errors_New. destruct (Analyzer d), (Output d); split;
    try discriminate; try (intros [H1 H2]; congruence); auto.
  all: intros _; split; discriminate.
Qed.

Lemma run_loop_ends inner d ctx queue k s s1 :
  items_handled inner d ctx queue k s s1 ->
  forall fuel s2 e, k < fuel ->
    Next queue ctx (handle inner d) s1 = Done (Some e) s2 ->
    run_loop inner fuel d ctx queue s
    = Done (if decide (e = io_EOF) then None else Some e) s2.
Proof.
  induction 1 as [s|k s s1 s2 Hn _ IH]; intros fuel s3 e Hlt Hlast;
    (destruct fuel as [|fuel]; [lia|]).
  - now rewrite (run_loop_step _ _ _ _ _ _ _ _ Hlast).
  - rewrite (run_loop_step _ _ _ _ _ _ _ _ Hn). apply IH; [lia | exact Hlast].
Qed.

(** C7.  For a driver that passes validation (so that [Next] is called at
    all): if the queue answers the very first [Next] call with [io.EOF], [Run]
    returns nil and that [Next] call is the only call it made, so none of
    Setup, Analyze, Output, AnalysisError and Teardown is invoked.  More
    generally, after any number of compilations handled with a nil result, a
    [Next] call that returns [io.EOF] makes [Run] return nil, and one that
    returns any other error makes [Run] return that error, in the state that
    [Next] call left. *)
Theorem end_of_stream_ends_run d ctx queue fuel :
  validate d = None ->
  (forall s w,
     queue ctx (world s) = (NoItem io_EOF, w) ->
     Run (S fuel) d ctx queue s
     = Done None {| world := w; calls := calls s ++ [CallNext] |})
  /\ (forall k s s1 s2 e,
        k < fuel ->
        items_handled fuel d ctx queue k s s1 ->
        Next queue ctx (handle fuel d) s1 = Done (Some e) s2 ->
        Run fuel d ctx queue s
        = Done (if decide (e = io_EOF) then None else Some e) s2).
Proof.
  intros Hv. unfold Run. rewrite Hv. split.
  - intros s w Hq.
    assert (Hn : Next queue ctx (handle (S fuel) d) s
                 = Done (Some io_EOF) {| world := w; calls := calls s ++ [CallNext] |}).
    { unfold Next. now rewrite Hq. }
    now rewrite (run_loop_step _ _ _ _ _ _ _ _ Hn).
  - intros k s s1 s2 e Hlt Hitems Hlast.
    now apply (run_loop_ends _ _ _ _ _ _ _ Hitems).
Qed.

(** C8.  [Run] on a driver whose Analyzer is unset returns the error "missing
    Analyzer", and on a driver whose Analyzer is set and whose Output is unset
    the error "missing Output function"; in both cases nothing has been called
    and the world is as it was.  When both are set, validation passes and the
    first thing [Run] does is call [Next] on the queue. *)
Theorem unconfigured_driver_fails_before_io d ctx queue fuel s :
  (Analyzer d = None ->
     Run fuel d ctx queue s = Done (Some (errors_New "missing Analyzer")) s)
  /\ (Analyzer d <> None -> Output d = None ->
        Run fuel d ctx queue s = Done (Some (errors_New "missing Output function")) s)
  /\ (Analyzer d <> None -> Output d <> None ->
        validate d = None
        /\ Run fuel d ctx queue s = run_loop fuel fuel d ctx queue s
        /\ (forall r s', Run fuel d ctx queue s = Done r s' ->
              exists rest, calls s' = calls s ++ CallNext :: rest)
        /\ (forall e w, queue ctx (world s) = (NoItem e, w) ->
              Run (S fuel) d ctx queue s
              = Done (if decide (e = io_EOF) then None else Some e)
                     {| world := w; calls := calls s ++ [CallNext] |})).
Proof.
  unfold Run, validate. repeat split.
  - now intros ->.
  - intros Ha ->. now destruct (Analyzer d).
  - destruct (Analyzer d), (Output d); congruence.
  - destruct (Analyzer d), (Output d); congruence.
  - destruct (Analyzer d), (Output d); try congruence.
    intros r s'. apply run_loop_calls.
  - intros e w Hq. destruct (Analyzer d), (Output d); try congruence.
    assert (Hn : Next queue ctx (handle (S fuel) d) s
                 = Done (Some e) {| world := w; calls := calls s ++ [CallNext] |}).
    { unfold Next. now rewrite Hq. }
    now rewrite (run_loop_step _ _ _ _ _ _ _ _ Hn).
Qed.

End Facts.

(** ** The properties at work in the example world *)

Import Example.

(** C1, as stated, fails: Setup fails for [cu1], a Teardown hook is
    configured, and the callback returns the setup error after the Setup call
    alone: Teardown is not invoked for the item. *)
Lemma setup_failure_skips_teardown_example :
  Setup driver_setup_fails = Some (hook_fails "boom")
  /\ Teardown driver_setup_fails = Some hook_ok
  /\ handle 5 driver_setup_fails tt cu1 (start [cu2] 0)
     = Done (Some (errorString "analysis setup error: boom"))
         {| world := {| queued := [cu2]; retries := 0 |}; calls := [CallSetup cu1] |}
  /\ ~ In (CallTeardown cu1) [CallSetup cu1 : @Call string string].
Proof.
  repeat split. intros [H|[]]. discriminate H.
Qed.

(** Setup fails with "boom": the setup error is the result, after Setup alone. *)
Lemma setup_failure_abandons_item_witness :
  handle 5 driver_setup_fails tt cu1 (start [cu2] 0)
  = Done (Some (fmt_Errorf "analysis setup error: " (errorString "boom")))
         {| world := {| queued := [cu2]; retries := 0 |};
            calls := calls (start [cu2] 0) ++ [CallSetup cu1] |}
  /\ analyze_calls [CallSetup cu1 : @Call string string] = []
  /\ teardown_calls [CallSetup cu1 : @Call string string] = [].
Proof.
  exact (setup_failure_abandons_item driver_setup_fails tt cu1 5
           (hook_fails "boom") (errorString "boom")
           {| queued := [cu2]; retries := 0 |} (start [cu2] 0) eq_refl eq_refl).
Defined.

(** Setup returns [ErrRetry]: nothing is retried. *)
Lemma setup_error_is_rewrapped_witness :
  exists e' s' seg,
    handle 5 driver_setup_retry tt cu1 (start [cu2] 3) = Done (Some e') s'
    /\ Error e' = "analysis setup error: " +:+ Error ErrRetry
    /\ e' <> ErrRetry /\ e' <> ErrRetry
    /\ (ErrRetry = ErrRetry -> e' = errorString "analysis setup error: retry analysis")
    /\ calls s' = calls (start [cu2] 3) ++ seg
    /\ setup_calls seg = [cu1] /\ analyze_calls seg = [].
Proof.
  exact (setup_error_is_rewrapped driver_setup_retry tt cu1 5 hook_retry ErrRetry
           {| queued := [cu2]; retries := 3 |} (start [cu2] 3) eq_refl eq_refl).
Defined.

(** C2, as stated, fails: the analyzer returns [ErrRetry], the hook is applied
    to it and returns nil, and the loop ends with nil after this one call of
    the analyzer. *)
Lemma hook_sees_retry_sentinel_example :
  Analyze (Analyzer driver_suppress) tt (request driver_suppress cu1)
    (Output driver_suppress) (start [] 2)
  = Done (Some ErrRetry)
      {| world := {| queued := []; retries := 1 |};
         calls := [CallAnalyze (request driver_suppress cu1); CallOutput "unit1"] |}
  /\ retry_loop 5 driver_suppress tt cu1 (Some ErrRetry) (start [] 2)
     = Done None
         {| world := {| queued := []; retries := 1 |};
            calls := [CallAnalyze (request driver_suppress cu1); CallOutput "unit1";
                      CallAnalysisError cu1 ErrRetry] |}.
Proof. split; reflexivity. Qed.

(** The hook turns the analyzer's [ErrRetry] into nil: the loop ends. *)
Lemma retry_is_decided_after_the_hook_witness :
  retry_loop 5 driver_suppress tt cu1 (Some ErrRetry) (start [] 2)
  = Done None
      {| world := {| queued := []; retries := 1 |};
         calls := [CallAnalyze (request driver_suppress cu1); CallOutput "unit1";
                   CallAnalysisError cu1 ErrRetry] |}.
Proof.
  exact (proj1 (proj2 (proj2
           (retry_is_decided_after_the_hook driver_suppress tt cu1 4 (start [] 2)
              (Some ErrRetry)
              {| world := {| queued := []; retries := 1 |};
                 calls := [CallAnalyze (request driver_suppress cu1); CallOutput "unit1"] |}
              eq_refl)))
           suppress ErrRetry None {| queued := []; retries := 1 |}
           eq_refl eq_refl eq_refl).
Defined.

(** Teardown fails with "disk full", after an analysis that failed and after
    one that succeeded on its second attempt. *)
Lemma analysis_error_masks_teardown_error_witness :
  handle 5 (driver_teardown_fails failing_analyzer) tt cu1 (start [] 0)
  = Done (Some (errorString "parse error"))
      {| world := {| queued := []; retries := 0 |};
         calls := [CallAnalyze (request (driver_teardown_fails failing_analyzer) cu1);
                   CallTeardown cu1;
                   CallLogPrintf
                     "WARNING: analysis teardown error after analysis error: disk full (analysis error: parse error)"] |}
  /\ handle 5 (driver_teardown_fails analyzer) tt cu1 (start [] 1)
     = Done (Some (errorString "analysis teardown error: disk full"))
         {| world := {| queued := []; retries := 0 |};
            calls := [CallAnalyze (request (driver_teardown_fails analyzer) cu1);
                      CallOutput "unit1";
                      CallAnalyze (request (driver_teardown_fails analyzer) cu1);
                      CallOutput "unit1";
                      CallTeardown cu1] |}.
Proof.
  split.
  - exact (analysis_error_masks_teardown_error (driver_teardown_fails failing_analyzer)
             tt cu1 5 (hook_fails "disk full") (start [] 0) (start [] 0) _
             (Some (errorString "parse error")) (errorString "disk full")
             {| queued := []; retries := 0 |} eq_refl eq_refl eq_refl eq_refl).
  - exact (analysis_error_masks_teardown_error (driver_teardown_fails analyzer) tt cu1 5
             (hook_fails "disk full") (start [] 1) (start [] 1) _ None
             (errorString "disk full") {| queued := []; retries := 0 |}
             eq_refl eq_refl eq_refl eq_refl).
Defined.

(** Two retries, then success: three analyzer calls and one Teardown call. *)
Lemma retry_counting_witness :
  exists r s' seg,
    Next queue tt (handle 5 driver) (start [cu1; cu2] 2) = Done r s'
    /\ calls s' = calls (start [cu1; cu2] 2) ++ CallNext :: seg
    /\ analyze_calls seg = replicate 3 (request driver cu1)
    /\ teardown_calls seg = [cu1].
Proof.
  destruct (retry_counting driver tt queue cu1 hook_ok 2 5 (start [cu1; cu2] 2)
              {| queued := [cu2]; retries := 2 |}
              {| world := {| queued := [cu2]; retries := 2 |};
                 calls := [CallNext; CallSetup cu1] |}
              eq_refl eq_refl eq_refl eq_refl)
    as (r & s' & seg & Hnext & Hcalls & Hanalyze & Hteardown & _).
  - simpl. eexists. split; [reflexivity|]. eexists. split; [reflexivity|].
    eexists. reflexivity.
  - repeat constructor.
  - exists r, s', seg. auto.
Defined.

(** An empty queue, and a queue of one compilation. *)
Lemma end_of_stream_ends_run_witness :
  Run 6 driver tt queue (start [] 0)
  = Done None {| world := {| queued := []; retries := 0 |}; calls := [CallNext] |}
  /\ Run 5 driver tt queue (start [cu1] 1)
     = Done None
         {| world := {| queued := []; retries := 0 |};
            calls := [CallNext; CallSetup cu1;
                      CallAnalyze (request driver cu1); CallOutput "unit1";
                      CallAnalyze (request driver cu1); CallOutput "unit1";
                      CallTeardown cu1; CallNext] |}.
Proof.
  destruct (end_of_stream_ends_run driver tt queue 5 eq_refl) as [Hfirst Hlater].
  split.
  - exact (Hfirst (start [] 0) {| queued := []; retries := 0 |} eq_refl).
  - apply (Hlater 1 (start [cu1] 1)
             {| world := {| queued := []; retries := 0 |};
                calls := [CallNext; CallSetup cu1;
                          CallAnalyze (request driver cu1); CallOutput "unit1";
                          CallAnalyze (request driver cu1); CallOutput "unit1";
                          CallTeardown cu1] |} _ io_EOF).
    + repeat constructor.
    + eapply items_handled_S; [reflexivity | apply items_handled_0].
    + reflexivity.
Defined.

(** A driver with no Analyzer, one with no Output, and one with both. *)
Lemma unconfigured_driver_fails_before_io_witness :
  Run 5 driver_unset tt queue (start [cu1] 0)
  = Done (Some (errors_New "missing Analyzer")) (start [cu1] 0)
  /\ Run 5 driver_no_output tt queue (start [cu1] 0)
     = Done (Some (errors_New "missing Output function")) (start [cu1] 0)
  /\ validate driver = None.
Proof.
  split; [|split].
  - exact (proj1 (unconfigured_driver_fails_before_io driver_unset tt queue 5
                    (start [cu1] 0)) eq_refl).
  - apply (proj1 (proj2 (unconfigured_driver_fails_before_io driver_no_output tt queue 5
                           (start [cu1] 0)))); [discriminate | reflexivity].
  - apply (proj2 (proj2 (unconfigured_driver_fails_before_io driver tt queue 5
                           (start [cu1] 0)))); discriminate.
Defined.

End DriverSpec.

(* ===================================================================== *)
(** * Part IV: properties of the selectors                                *)
(* ===================================================================== *)

Module SelectorSpec.
Import Selector.

(** C9.  For every [ExtraActionSelector], state blob and payload:
    [SerializeInto] returns false and leaves the blob as it was, and
    [DeserializeFrom] returns the status [kUnimplemented] ("stateless
    selector") whatever the payload holds, leaving the selector as it was.
    The same holds when the selector is held by an [AnyArtifactSelector]. *)
Theorem extra_action_selector_is_stateless (sel : ExtraActionSelector) (state : Any) :
  SerializeInto sel state = (false, state)
  /\ DeserializeFrom state sel = (UnimplementedError "stateless selector", sel)
  /\ code (fst (DeserializeFrom state sel)) = kUnimplemented
  /\ SerializeInto (AnyArtifactSelector_of sel) state = (false, state)
  /\ fst (DeserializeFrom state (AnyArtifactSelector_of sel))
     = UnimplementedError "stateless selector".
Proof.
  split; [|split; [|split; [|split]]].
  - unfold SerializeInto, ExtraActionSelector_selector,
      BazelArtifactSelector_SerializeInto. reflexivity.
  - unfold DeserializeFrom, ExtraActionSelector_selector,
      BazelArtifactSelector_DeserializeFrom. reflexivity.
  - reflexivity.
  - reflexivity.
  - reflexivity.
Qed.

(** ** Serialization *)

Lemma State_proto_round_trip (st : State) : State_of_proto (State_to_proto st) = st.
Proof.
  destruct st as [dis fsets pend]. unfold State_of_proto, State_to_proto. simpl.
  f_equal.
  - apply list_to_set_elements_L.
  - apply list_to_map_to_list.
  - apply list_to_map_to_list.
Qed.

Lemma restore_serialized (sel : AspectArtifactSelector) (blob : Any) :
  DeserializeFrom (snd (SerializeInto sel blob)) (AspectArtifactSelector_new (options_ sel))
  = (OkStatus, sel).
Proof.
  unfold DeserializeFrom, SerializeInto, AspectArtifactSelector_selector,
    AspectArtifactSelector_DeserializeFrom, AspectArtifactSelector_SerializeInto.
  cbn [snd type_url value].
  destruct (decide (kStateTypeUrl = kStateTypeUrl)) as [_|Hne]; [|now elim Hne].
  unfold with_state, AspectArtifactSelector_new. cbn [options_].
  rewrite State_proto_round_trip. now destruct sel.
Qed.

(** C5.  For every state an [AspectArtifactSelector] can hold (the reachable
    ones among them) and every sequence of build events that follows:
    [SerializeInto] succeeds, [DeserializeFrom] restores its payload into a
    selector freshly constructed from the same options with status OK, and
    the restored selector gives the same sequence of [Select] outputs as the
    original one (it holds the same state, before and after). *)
Theorem serialization_round_trip (sel : AspectArtifactSelector) (blob : Any)
    (events : list BuildEvent) :
  exists encoded restored,
    SerializeInto sel blob = (true, encoded)
    /\ type_url encoded = kStateTypeUrl
    /\ DeserializeFrom encoded (AspectArtifactSelector_new (options_ sel))
       = (OkStatus, restored)
    /\ state_ restored = state_ sel
    /\ fst (select_all events restored) = fst (select_all events sel)
    /\ snd (select_all events restored) = snd (select_all events sel).
Proof.
  exists (snd (SerializeInto sel blob)), sel.
  split; [reflexivity|]. split; [reflexivity|].
  split; [apply restore_serialized|]. auto.
Qed.

(** ** Resolving the filesets of a target *)

Lemma resolve_disposed (label F : string) (st : State) :
  F ∈ disposed st -> resolve label F st = (None, st).
Proof. intros H. unfold resolve. now rewrite decide_True. Qed.

Lemma resolve_all_disposed (label F : string) (ids : list string) (st : State) :
  Forall (eq F) ids -> F ∈ disposed st -> resolve_all label ids st = (None, st).
Proof.
  intros Hall Hd. induction Hall as [|id ids <- _ IH]; [reflexivity|].
  simpl. now rewrite (resolve_disposed _ _ _ Hd), IH.
Qed.

Lemma resolve_claimed (label F : string) (st : State) :
  F ∉ disposed st -> filesets st !! F = None -> pending st !! F = Some label ->
  resolve label F st = (None, st).
Proof.
  intros Hd Hf Hp. unfold resolve. rewrite decide_False by exact Hd.
  rewrite Hf, (insert_id _ _ _ Hp). now destruct st.
Qed.

Lemma resolve_all_claimed (label F : string) (ids : list string) (st : State) :
  Forall (eq F) ids ->
  F ∉ disposed st -> filesets st !! F = None -> pending st !! F = Some label ->
  resolve_all label ids st = (None, st).
Proof.
  intros Hall Hd Hf Hp. induction Hall as [|id ids <- _ IH]; [reflexivity|].
  simpl. now rewrite (resolve_claimed _ _ _ Hd Hf Hp), IH.
Qed.

Lemma resolve_all_stored (label F : string) (ids : list string) (st : State)
    (stored : NamedSetOfFiles) :
  Forall (eq F) ids -> F ∉ disposed st -> filesets st !! F = Some stored ->
  resolve_all label (F :: ids) st
  = (Some {| art_id := label; art_files := files stored |},
     {| disposed := {[F]} ∪ disposed st;
        filesets := delete F (filesets st);
        pending := pending st |}).
Proof.
  intros Hall Hd Hf. cbn [resolve_all]. unfold resolve.
  rewrite decide_False by exact Hd. rewrite Hf.
  rewrite (resolve_all_disposed label F ids); [reflexivity | exact Hall |].
  cbn [disposed]. set_solver.
Qed.

Lemma resolve_all_unseen (label F : string) (ids : list string) (st : State) :
  Forall (eq F) ids -> F ∉ disposed st -> filesets st !! F = None ->
  resolve_all label (F :: ids) st
  = (None,
     {| disposed := disposed st;
        filesets := filesets st;
        pending := <[F := label]> (pending st) |}).
Proof.
  intros Hall Hd Hf. cbn [resolve_all]. unfold resolve.
  rewrite decide_False by exact Hd. rewrite Hf.
  rewrite (resolve_all_claimed label F ids); [reflexivity | exact Hall | exact Hd | exact Hf |].
  cbn [pending]. apply lookup_insert_eq.
Qed.

Lemma qualifying_ids_groups (options : AspectArtifactSelectorOptions)
    (groups : list (string * list string)) :
  qualifying_ids options groups <> [] -> qualifying_groups options groups <> [].
Proof. unfold qualifying_ids. now destruct (qualifying_groups options groups). Qed.

(** The target event of a matching pair, on any selector. *)
Lemma SelectTargetCompleted_matching (label aspect : string)
    (groups : list (string * list string))
    (options : AspectArtifactSelectorOptions) (st : State) :
  target_aspect_allowlist options aspect = true ->
  qualifying_ids options groups <> [] ->
  SelectTargetCompleted label aspect true groups {| options_ := options; state_ := st |}
  = (fst (resolve_all label (qualifying_ids options groups) st),
     {| options_ := options;
        state_ := snd (resolve_all label (qualifying_ids options groups) st) |}).
Proof.
  intros Ha Hq. unfold SelectTargetCompleted, with_state. cbn [options_ state_].
  rewrite Ha. cbn [negb].
  apply qualifying_ids_groups in Hq.
  destruct (qualifying_groups options groups) as [|g gs] eqn:Hg; [now elim Hq|].
  now destruct (resolve_all _ _ _).
Qed.

(** C6.  Take one fileset [F] and one target that matches the allowlists and
    whose qualifying output groups reference [F] and nothing else.  Fed to a
    fresh selector, the events [fileset; target] and the events
    [target; fileset] each give no artifact at the first event and the same
    artifact at the second: the target's label with the allowlisted files of
    the set.  Either way [disposed] ends as the singleton of [F] and [pending]
    (and [filesets]) end empty. *)
Theorem order_independence (options : AspectArtifactSelectorOptions)
    (F label aspect : string) (fs : NamedSetOfFiles)
    (groups : list (string * list string)) :
  target_aspect_allowlist options aspect = true ->
  qualifying_ids options groups <> [] ->
  Forall (eq F) (qualifying_ids options groups) ->
  let fileset_event := NamedSet F fs in
  let target_event := TargetCompleted label aspect true groups in
  let artifact := {| art_id := label; art_files := files (filter_files options fs) |} in
  let final := {| options_ := options;
                  state_ := {| disposed := {[F]}; filesets := ∅; pending := ∅ |} |} in
  select_all [fileset_event; target_event] (AspectArtifactSelector_new options)
  = ([None; Some artifact], final)
  /\ select_all [target_event; fileset_event] (AspectArtifactSelector_new options)
     = ([None; Some artifact], final).
Proof.
  intros Ha Hq Hall. cbv zeta.
  assert (Hres : forall st,
    SelectTargetCompleted label aspect true groups {| options_ := options; state_ := st |}
    = (fst (resolve_all label (qualifying_ids options groups) st),
       {| options_ := options;
          state_ := snd (resolve_all label (qualifying_ids options groups) st) |}))
    by (intros st; now apply SelectTargetCompleted_matching).
  destruct (qualifying_ids options groups) as [|id ids] eqn:Hids; [now elim Hq|].
  inversion Hall as [|? ? <- Hrest]; subst. clear Hq Hall.
  cbn [select_all Select AspectArtifactSelector_selector AspectArtifactSelector_Select].
  unfold AspectArtifactSelector_new, State_empty.
  split.
  - (* the fileset arrives first and waits in [filesets] *)
    unfold SelectFileSet, with_state. cbn [state_ options_ disposed pending filesets].
    rewrite decide_False by set_solver. rewrite lookup_empty, Hres.
    rewrite (resolve_all_stored label id ids _ (filter_files options fs));
      [|exact Hrest|cbn [disposed]; set_solver|cbn [filesets]; apply lookup_insert_eq].
    cbn [fst snd disposed filesets pending].
    rewrite delete_insert_eq, delete_empty.
    now rewrite (right_id_L ∅ (∪)).
  - (* the target arrives first and claims the fileset in [pending] *)
    rewrite Hres.
    rewrite (resolve_all_unseen label id ids);
      [|exact Hrest|cbn [disposed]; set_solver|cbn [filesets]; apply lookup_empty].
    cbn [fst snd disposed filesets pending]. unfold SelectFileSet, with_state.
    cbn [state_ options_ disposed pending filesets].
    rewrite decide_False by set_solver. rewrite lookup_insert_eq.
    rewrite delete_insert_eq, delete_empty.
    now rewrite (right_id_L ∅ (∪)).
Qed.

(** The fileset "fs1" and the target "//x:y", in both orders. *)
Lemma order_independence_witness :
  let artifact := {| art_id := "//x:y"; art_files := [Example.foo_kzip] |} in
  let final := {| options_ := Example.options;
                  state_ := {| disposed := {["fs1"]}; filesets := ∅; pending := ∅ |} |} in
  select_all [Example.fileset_event; Example.target_event]
    (AspectArtifactSelector_new Example.options)
  = ([None; Some artifact], final)
  /\ select_all [Example.target_event; Example.fileset_event]
       (AspectArtifactSelector_new Example.options)
     = ([None; Some artifact], final).
Proof.
  apply (order_independence Example.options "fs1" "//x:y" "kythe" Example.fs1 Example.groups).
  - reflexivity.
  - discriminate.
  - repeat constructor.
Defined.

End SelectorSpec.

(* ===================================================================== *)
(** * Part V: further properties of the driver                            *)
(* ===================================================================== *)

Module DriverMore.
Import Driver DriverSpec.

Section Facts.

Context {Ctx CompilationUnit AnalysisOutput W : Type}.

Local Abbreviation Compilation := (@Compilation CompilationUnit).
Local Abbreviation Call := (@Call CompilationUnit AnalysisOutput).
Local Abbreviation St := (@St CompilationUnit AnalysisOutput W).
Local Abbreviation Driver := (@Driver Ctx CompilationUnit AnalysisOutput W).
Local Abbreviation Queue := (@Queue Ctx CompilationUnit W).
Local Abbreviation M := (@M CompilationUnit AnalysisOutput W).
Local Abbreviation IO := (@IO Ctx CompilationUnit AnalysisOutput W).
Local Abbreviation OutputFunc := (@OutputFunc Ctx AnalysisOutput W).
Local Abbreviation Analysis := (@Analysis AnalysisOutput W).

Implicit Types (d : Driver) (ctx : Ctx) (cu : Compilation) (s : St)
  (queue : Queue) (err : option error) (e : error) (l seg : list Call).

(** ** No nil dereference after validation *)

Lemma bind_no_panic {A B} (m : M A) (k : A -> M B) s :
  m s <> Panic -> (forall a s1, m s = Done a s1 -> k a s1 <> Panic) ->
  bind m k s <> Panic.
Proof.
  unfold bind. intros Hm Hk. destruct (m s) as [a s1| |];
    [now apply Hk | discriminate | now elim Hm].
Qed.

Lemma invoke_no_panic {A} (c : Call) (f : W -> A * W) s : invoke c f s <> Panic.
Proof. unfold invoke. now destruct (f (world s)). Qed.

Lemma run_analysis_no_panic (f : OutputFunc) ctx (a : Analysis) :
  forall l : list Call, run_analysis (Some f) ctx a l <> Panic.
Proof.
  induction a as [r w|o w k IH]; intros l; simpl; [discriminate|].
  destruct (f ctx o w) as [e w']. apply IH.
Qed.

Lemma attempt_no_panic d ctx cu s :
  validate d = None -> attempt d ctx cu s <> Panic.
Proof.
  intros Hv. apply validate_None in Hv as [Ha Ho].
  unfold attempt. apply bind_no_panic.
  - unfold Analyze. destruct (Analyzer d) as [an|]; [|now elim Ha].
    destruct (Output d) as [f|]; [|now elim Ho]. apply run_analysis_no_panic.
  - intros ar s1 _. destruct (AnalysisError d), ar;
      try discriminate; apply invoke_no_panic.
Qed.

Lemma retry_loop_no_panic d ctx cu fuel :
  validate d = None ->
  forall err s, retry_loop fuel d ctx cu err s <> Panic.
Proof.
  intros Hv. induction fuel as [|fuel IH]; intros err s; simpl;
    destruct (is_ErrRetry err); try discriminate.
  apply bind_no_panic; [now apply attempt_no_panic | intros; apply IH].
Qed.

Lemma teardown_phase_no_panic d ctx cu err s : teardown_phase d ctx cu err s <> Panic.
Proof.
  unfold teardown_phase. destruct (Teardown d) as [teardown|]; [|discriminate].
  apply bind_no_panic; [apply invoke_no_panic|].
  intros [te|] s1 _; [|discriminate]. now destruct err.
Qed.

Lemma handle_no_panic fuel d ctx cu s :
  validate d = None -> handle fuel d ctx cu s <> Panic.
Proof.
  intros Hv. unfold handle. apply bind_no_panic.
  - unfold setup_phase. destruct (Setup d); [apply invoke_no_panic | discriminate].
  - intros [e|] s1 _; [discriminate|].
    apply bind_no_panic; [now apply retry_loop_no_panic|].
    intros; apply teardown_phase_no_panic.
Qed.

Lemma run_loop_no_panic inner d ctx queue fuel :
  validate d = None -> forall s, run_loop inner fuel d ctx queue s <> Panic.
Proof.
  intros Hv. induction fuel as [|fuel IH]; intros s; simpl; [discriminate|].
  apply bind_no_panic.
  - unfold Next. destruct (queue ctx (world s)) as [[cu|e] w];
      [now apply handle_no_panic | discriminate].
  - intros err s1 _. destruct (is_EOF err); [discriminate|].
    destruct err; [discriminate | apply IH].
Qed.


(** ** What an item can return *)

Lemma retry_loop_result d ctx cu fuel :
  forall err s r s', retry_loop fuel d ctx cu err s = Done r s' -> r <> Some ErrRetry.
Proof.
  induction fuel as [|fuel IH]; intros err s r s' H; simpl in H;
    destruct (decide (err = Some ErrRetry)) as [->|Hne];
    try (rewrite (is_ErrRetry_false _ Hne) in H; injection H as <- _; exact Hne).
  - discriminate.
  - change (is_ErrRetry (Some ErrRetry)) with true in H. cbv iota in H.
    apply bind_inv in H as (err' & s1 & _ & Hk). now apply IH in Hk.
Qed.

Lemma teardown_phase_result d ctx cu err s r s' :
  teardown_phase d ctx cu err s = Done r s' ->
  r = err \/ (err = None /\ exists te, r = Some (fmt_Errorf "analysis teardown error: " te)).
Proof.
  unfold teardown_phase. destruct (Teardown d) as [teardown|]; intros H.
  - apply bind_inv in H as (tErr & s1 & _ & Hk).
    destruct tErr as [te|], err as [e|];
      try (injection Hk as <- _; now left).
    injection Hk as <- _. right. eauto.
  - injection H as <- _. now left.
Qed.

Lemma handle_result fuel d ctx cu s r s' :
  handle fuel d ctx cu s = Done r s' ->
  (exists e, r = Some (fmt_Errorf "analysis setup error: " e))
  \/ (exists s1 s2 err,
        setup_phase d ctx cu s = Done None s1
        /\ retry_loop fuel d ctx cu (Some ErrRetry) s1 = Done err s2
        /\ teardown_phase d ctx cu err s2 = Done r s').
Proof.
  unfold handle. intros H. apply bind_inv in H as (sErr & s1 & Hs & Hk).
  destruct sErr as [e|].
  - injection Hk as <- _. left. eauto.
  - apply bind_inv in Hk as (err & s2 & Hl & Ht). right. eauto 7.
Qed.

Lemma handle_result_not_retry fuel d ctx cu s r s' :
  handle fuel d ctx cu s = Done r s' -> r <> Some ErrRetry.
Proof.
  intros H. apply handle_result in H as [[e ->]|(s1 & s2 & err & _ & Hl & Ht)];
    [discriminate|].
  apply retry_loop_result in Hl.
  apply teardown_phase_result in Ht as [->|[_ [te ->]]]; [exact Hl | discriminate].
Qed.

(** X2.  The retry sentinel never surfaces: the result of an item is never
    [ErrRetry], whatever the hooks and the analyzer return, and [Run] returns
    [ErrRetry] only if the queue's [Next] itself fails with it. *)
Theorem retry_sentinel_never_surfaces d ctx queue fuel :
  (forall cu s r s', handle fuel d ctx cu s = Done r s' -> r <> Some ErrRetry)
  /\ ((forall w w', queue ctx w <> (NoItem ErrRetry, w')) ->
      forall s r s', Run fuel d ctx queue s = Done r s' -> r <> Some ErrRetry).
Proof.
  split; [intros cu s r s'; apply handle_result_not_retry|].
  intros Hq s r s'. unfold Run, validate, errors_New.
  destruct (Analyzer d); [|intros [= <- _]; discriminate].
  destruct (Output d); [|intros [= <- _]; discriminate].
  generalize fuel at 1. intros inner. revert s.
  induction fuel as [|n IH]; intros s H; [discriminate|].
  simpl in H. apply bind_inv in H as (err & s1 & Hn & Hk).
  assert (Herr : err <> Some ErrRetry).
  { unfold Next in Hn. destruct (queue ctx (world s)) as [[cu|e] w] eqn:Hqs.
    - now apply handle_result_not_retry in Hn.
    - injection Hn as <- _. intros [= ->]. now apply (Hq _ _ Hqs). }
  destruct (is_EOF err); [injection Hk as <- _; discriminate|].
  destruct err as [e|]; [injection Hk as <- _; exact Herr|].
  now apply IH in Hk.
Qed.

(** ** The order of the calls made for an item *)

Lemma analysis_call_outputs d cu (os : list AnalysisOutput) :
  Forall (analysis_call d cu) (map CallOutput os : list Call).
Proof. induction os; constructor; simpl; auto. Qed.

Lemma attempt_trace d ctx cu s err s' :
  attempt d ctx cu s = Done err s' ->
  exists seg, calls s' = calls s ++ seg /\ seg <> []
              /\ Forall (analysis_call d cu) seg.
Proof.
  unfold attempt. intros H. apply bind_inv in H as (ar & s1 & Ha & Hk).
  apply Analyze_calls in Ha as [os Hos].
  assert (Hbase : Forall (analysis_call d cu)
                    (CallAnalyze (request d cu) :: map CallOutput os : list Call)).
  { constructor; [reflexivity | apply analysis_call_outputs]. }
  destruct (AnalysisError d) as [hook|] eqn:Hh, ar as [e|];
    try (injection Hk as _ <-; eexists; split; [exact Hos|]; split;
         [discriminate | exact Hbase]).
  apply invoke_calls in Hk as [_ Hc].
  exists ((CallAnalyze (request d cu) :: map CallOutput os) ++ [CallAnalysisError cu e]).
  split; [now rewrite Hc, Hos, <- app_assoc|]. split; [discriminate|].
  apply Forall_app. split; [exact Hbase|].
  constructor; [|constructor]. simpl. split; [reflexivity|]. now rewrite Hh.
Qed.

Lemma retry_loop_trace d ctx cu fuel :
  forall err s r s', retry_loop fuel d ctx cu err s = Done r s' ->
    exists mid, calls s' = calls s ++ mid
                /\ Forall (analysis_call d cu) mid
                /\ (err = Some ErrRetry -> mid <> []).
Proof.
  induction fuel as [|fuel IH]; intros err s r s' H; simpl in H;
    destruct (decide (err = Some ErrRetry)) as [->|Hne];
    try (rewrite (is_ErrRetry_false _ Hne) in H; injection H as _ <-;
         exists []; rewrite app_nil_r; repeat split; [constructor | congruence]).
  - discriminate.
  - change (is_ErrRetry (Some ErrRetry)) with true in H. cbv iota in H.
    apply bind_inv in H as (err' & s1 & Ha & Hk).
    apply attempt_trace in Ha as (seg & Hc & Hne & Hall).
    apply IH in Hk as (mid & Hc' & Hall' & _).
    exists (seg ++ mid). split; [now rewrite Hc', Hc, <- app_assoc|].
    split; [apply Forall_app; now split|].
    intros _. destruct seg; [now elim Hne | discriminate].
Qed.

Lemma teardown_phase_trace d ctx cu err s r s' :
  teardown_phase d ctx cu err s = Done r s' ->
  exists post, calls s' = calls s ++ post
    /\ match Teardown d with
       | None => post = []
       | Some _ => post = [CallTeardown cu]
                   \/ exists msg, post = [CallTeardown cu; CallLogPrintf msg]
       end.
Proof.
  unfold teardown_phase. destruct (Teardown d) as [teardown|]; intros H.
  - apply bind_inv in H as (tErr & s1 & Hi & Hk).
    apply invoke_calls in Hi as [_ Hc].
    destruct tErr as [te|], err as [e|];
      try (injection Hk as _ <-; exists [CallTeardown cu]; now auto).
    unfold bind, log_Printf, ret in Hk. injection Hk as _ <-.
    eexists [CallTeardown cu; CallLogPrintf _]. cbn [calls].
    split; [now rewrite Hc, <- app_assoc | eauto].
  - injection H as _ <-. exists []. now rewrite app_nil_r.
Qed.

Lemma handle_phases fuel d ctx cu s r s' :
  handle fuel d ctx cu s = Done r s' ->
  exists pre mid post,
    calls s' = calls s ++ pre ++ mid ++ post
    /\ pre = match Setup d with Some _ => [CallSetup cu] | None => [] end
    /\ Forall (analysis_call d cu) mid
    /\ ((mid = [] /\ post = [] /\ Setup d <> None
         /\ exists e, r = Some (fmt_Errorf "analysis setup error: " e))
        \/ (mid <> []
            /\ match Teardown d with
               | None => post = []
               | Some _ => post = [CallTeardown cu]
                           \/ exists msg, post = [CallTeardown cu; CallLogPrintf msg]
               end)).
Proof.
  unfold handle. intros H. apply bind_inv in H as (sErr & s1 & Hs & Hk).
  assert (Hpre : calls s1 = calls s ++ match Setup d with
                                       | Some _ => [CallSetup cu]
                                       | None => []
                                       end
                 /\ (sErr <> None -> Setup d <> None)).
  { unfold setup_phase in Hs. destruct (Setup d) as [setup|].
    - apply invoke_calls in Hs as [_ Hc]. split; [exact Hc | discriminate].
    - injection Hs as <- <-. rewrite app_nil_r. split; [reflexivity | congruence]. }
  destruct Hpre as [Hc1 Hset].
  destruct sErr as [e|].
  - injection Hk as <- <-. exists (match Setup d with
                                  | Some _ => [CallSetup cu]
                                  | None => []
                                  end), [], [].
    rewrite !app_nil_r. split; [exact Hc1|]. split; [reflexivity|].
    split; [constructor|]. left. repeat split; [now apply Hset | eauto].
  - apply bind_inv in Hk as (err & s2 & Hl & Ht).
    apply retry_loop_trace in Hl as (mid & Hc2 & Hall & Hne).
    apply teardown_phase_trace in Ht as (post & Hc3 & Hpost).
    exists (match Setup d with Some _ => [CallSetup cu] | None => [] end), mid, post.
    split; [now rewrite Hc3, Hc2, Hc1, <- !app_assoc|].
    split; [reflexivity|]. split; [exact Hall|]. right. split; [now apply Hne | exact Hpost].
Qed.


(** ** Counting the [Next] calls *)

Lemma count_next_app l1 l2 : count_next (l1 ++ l2) = count_next l1 + count_next l2.
Proof. unfold count_next. now rewrite flat_map_app, length_app. Qed.

Lemma count_next_analysis d cu mid :
  Forall (analysis_call d cu) mid -> count_next mid = 0.
Proof.
  induction 1 as [|c mid Hc _ IH]; [reflexivity|].
  change (c :: mid) with ([c] ++ mid). rewrite count_next_app, IH.
  now destruct c.
Qed.

Lemma handle_no_next fuel d ctx cu s r s' :
  handle fuel d ctx cu s = Done r s' ->
  exists seg, calls s' = calls s ++ seg /\ count_next seg = 0.
Proof.
  intros H. apply handle_phases in H as (pre & mid & post & Hc & Hpre & Hmid & Hpost).
  exists (pre ++ mid ++ post). split; [exact Hc|].
  rewrite !count_next_app, (count_next_analysis _ _ _ Hmid).
  assert (count_next pre = 0) as -> by (subst pre; now destruct (Setup d)).
  destruct Hpost as [(_ & -> & _)|[_ Hpost]]; [reflexivity|].
  destruct (Teardown d); [|now subst post].
  now destruct Hpost as [->|[msg ->]].
Qed.

Lemma Next_one_next fuel d ctx queue s r s' :
  Next queue ctx (handle fuel d) s = Done r s' ->
  exists seg, calls s' = calls s ++ seg /\ count_next seg = 1.
Proof.
  unfold Next. destruct (queue ctx (world s)) as [[cu|e] w]; intros H.
  - apply handle_no_next in H as (seg & Hc & Hn). exists (CallNext :: seg).
    cbn [calls] in Hc. rewrite Hc, <- app_assoc. split; [reflexivity|].
    change (CallNext :: seg) with ([CallNext] ++ seg).
    now rewrite count_next_app, Hn.
  - injection H as _ <-. now exists [CallNext].
Qed.

Lemma items_handled_next inner d ctx queue k s s1 :
  items_handled inner d ctx queue k s s1 ->
  exists seg, calls s1 = calls s ++ seg /\ count_next seg = k.
Proof.
  induction 1 as [s|k s s1 s2 Hn _ (seg' & Hc' & Hk)].
  - exists []. now rewrite app_nil_r.
  - apply Next_one_next in Hn as (seg & Hc & H1).
    exists (seg ++ seg'). split; [now rewrite Hc', Hc, <- app_assoc|].
    now rewrite count_next_app, H1, Hk.
Qed.

(** X4.  [Run] fetches one compilation at a time: when it has handled [k]
    compilations with a nil result and the following [Next] call returns an
    error (the end of the stream, a failure of the queue, or the error of the
    compilation it fetched), [Run] returns having called [Next] exactly [k+1]
    times; no compilation is fetched after the one that failed. *)
Theorem one_next_call_per_item d ctx queue fuel k s s1 s2 e :
  validate d = None ->
  items_handled fuel d ctx queue k s s1 ->
  Next queue ctx (handle fuel d) s1 = Done (Some e) s2 ->
  k < fuel ->
  exists seg,
    Run fuel d ctx queue s = Done (if decide (e = io_EOF) then None else Some e) s2
    /\ calls s2 = calls s ++ seg
    /\ count_next seg = S k.
Proof.
  intros Hv Hitems Hlast Hlt.
  destruct (items_handled_next _ _ _ _ _ _ _ Hitems) as (seg & Hc & Hk).
  destruct (Next_one_next _ _ _ _ _ _ _ Hlast) as (seg' & Hc' & H1).
  exists (seg ++ seg'). split.
  - unfold Run. rewrite Hv. now apply (run_loop_ends _ _ _ _ _ _ _ Hitems).
  - split; [now rewrite Hc', Hc, <- app_assoc|].
    rewrite count_next_app, Hk, H1. lia.
Qed.

(** ** An analysis that fails with [io.EOF] *)

Lemma teardown_phase_keeps_error d ctx cu e s :
  exists s', teardown_phase d ctx cu (Some e) s = Done (Some e) s'.
Proof.
  unfold teardown_phase. destruct (Teardown d) as [teardown|]; [|now eexists].
  unfold bind, invoke. destruct (teardown ctx cu (world s)) as [[te|] w];
    unfold log_Printf, ret; now eexists.
Qed.

(** X5.  An analysis error equal to [io.EOF] is taken for the end of the
    stream.  If the retry loop of a compilation ends with [io.EOF] (returned
    by the analyzer, or by the AnalysisError hook), then, whether or not
    Teardown fails, [Run] returns nil at once: the error is not reported and
    [Next] is not called again, so the compilations left in the queue are
    never fetched. *)
Theorem analysis_eof_is_taken_for_end_of_stream d ctx queue cu fuel s w s1 s2 :
  validate d = None ->
  queue ctx (world s) = (Item cu, w) ->
  setup_phase d ctx cu {| world := w; calls := calls s ++ [CallNext] |} = Done None s1 ->
  retry_loop fuel d ctx cu (Some ErrRetry) s1 = Done (Some io_EOF) s2 ->
  exists s3 seg,
    Run fuel d ctx queue s = Done None s3
    /\ calls s3 = calls s ++ seg
    /\ count_next seg = 1.
Proof.
  intros Hv Hq Hs Hl.
  destruct (teardown_phase_keeps_error d ctx cu io_EOF s2) as [s3 Ht].
  assert (Hn : Next queue ctx (handle fuel d) s = Done (Some io_EOF) s3).
  { unfold Next. rewrite Hq. unfold handle.
    now rewrite (bind_Done _ _ _ _ _ Hs), (bind_Done _ _ _ _ _ Hl). }
  destruct (Next_one_next _ _ _ _ _ _ _ Hn) as (seg & Hc & H1).
  exists s3, seg. split; [|now split].
  unfold Run. rewrite Hv.
  destruct fuel as [|n]; [discriminate Hl|].
  now rewrite (run_loop_step _ _ _ _ _ _ _ _ Hn).
Qed.

(** X6.  Only the analysis can make an item look like the end of the stream:
    if the callback returns [io.EOF] for a compilation, then Setup passed and
    the retry loop ended with [io.EOF].  A failure of Setup or of Teardown,
    even with [io.EOF] itself, is wrapped in a new error and so is always
    reported by [Run]. *)
Theorem item_eof_comes_from_the_analysis fuel d ctx cu s s' :
  handle fuel d ctx cu s = Done (Some io_EOF) s' ->
  exists s1 s2,
    setup_phase d ctx cu s = Done None s1
    /\ retry_loop fuel d ctx cu (Some ErrRetry) s1 = Done (Some io_EOF) s2
    /\ teardown_phase d ctx cu (Some io_EOF) s2 = Done (Some io_EOF) s'.
Proof.
  intros H. apply handle_result in H as [[e He]|(s1 & s2 & err & Hs & Hl & Ht)];
    [discriminate He|].
  destruct (teardown_phase_result _ _ _ _ _ _ _ Ht) as [<-|[_ [te Hte]]];
    [eauto | discriminate Hte].
Qed.

(** ** A whole run *)

Lemma retry_loop_counts_to d ctx cu :
  AnalysisError d = None ->
  forall K fuel s s', K < fuel -> analyzer_retries_to K d ctx cu s s' ->
    retry_loop fuel d ctx cu (Some ErrRetry) s = Done None s'
    /\ exists seg, calls s' = calls s ++ seg
                   /\ analyze_calls seg = replicate (S K) (request d cu)
                   /\ teardown_calls seg = [].
Proof.
  intros Hhook. induction K as [|K IH]; intros fuel s s' Hlt HK;
    (destruct fuel as [|fuel]; [lia|]).
  - simpl in HK.
    assert (Hat : attempt d ctx cu s = Done None s') by now rewrite attempt_no_hook.
    destruct (attempt_calls _ _ _ _ _ _ Hat) as (seg & Hc & Hn & Ht).
    rewrite (retry_loop_step _ _ _ _ _ _ _ Hat). split; [reflexivity|].
    exists (CallAnalyze (request d cu) :: seg). simpl. rewrite Hn, Ht. auto.
  - destruct HK as (s1 & Ha & HK).
    assert (Hat : attempt d ctx cu s = Done (Some ErrRetry) s1) by now rewrite attempt_no_hook.
    destruct (attempt_calls _ _ _ _ _ _ Hat) as (seg & Hc & Hn & Ht).
    destruct (IH fuel s1 s' ltac:(lia) HK) as (Hr & seg' & Hc' & Hn' & Ht').
    rewrite (retry_loop_step _ _ _ _ _ _ _ Hat). split; [exact Hr|].
    exists ((CallAnalyze (request d cu) :: seg) ++ seg').
    split; [now rewrite Hc', Hc, <- app_assoc|].
    rewrite analyze_calls_app, teardown_calls_app. simpl.
    rewrite Hn, Ht, Hn', Ht'. auto.
Qed.

Lemma teardown_phase_counts d ctx cu err s r s' :
  teardown_phase d ctx cu err s = Done r s' ->
  exists post, calls s' = calls s ++ post
               /\ analyze_calls post = []
               /\ teardown_calls post = match Teardown d with
                                        | Some _ => [cu]
                                        | None => []
                                        end.
Proof.
  intros H. apply teardown_phase_trace in H as (post & Hc & Hpost).
  exists post. split; [exact Hc|].
  destruct (Teardown d); [|now subst post].
  now destruct Hpost as [->|[msg ->]].
Qed.

Lemma retried_items_handled d ctx queue fuel items s s' :
  AnalysisError d = None ->
  retried_items d ctx queue items s s' ->
  Forall (fun i => snd i < fuel) items ->
  items_handled fuel d ctx queue (length items) s s'
  /\ exists seg,
       calls s' = calls s ++ seg
       /\ analyze_calls seg
          = flat_map (fun i => replicate (S (snd i)) (request d (fst i))) items
       /\ teardown_calls seg = match Teardown d with
                                | Some _ => map fst items
                                | None => []
                                end.
Proof.
  intros Hh Hrun. induction Hrun as [s|cu K rest s w s1 s2 s3 s' Hq Hs HK Ht _ IH];
    intros Hall.
  - split; [constructor|]. exists []. rewrite app_nil_r. now destruct (Teardown d).
  - inversion Hall as [|? ? HKlt Hrest]; subst. cbn [snd fst] in HKlt.
    destruct (IH Hrest) as (Hitems & seg' & Hc' & Hn' & Ht').
    destruct (retry_loop_counts_to d ctx cu Hh K fuel s1 s2 HKlt HK)
      as (Hl & seg1 & Hc1 & Hn1 & Ht1).
    destruct (setup_phase_calls _ _ _ _ _ _ Hs) as (seg0 & Hc0 & Hn0 & Ht0).
    destruct (teardown_phase_counts _ _ _ _ _ _ _ Ht) as (post & Hc3 & Hn3 & Ht3).
    split.
    + apply items_handled_S with (s1 := s3); [|exact Hitems].
      unfold Next. rewrite Hq. unfold handle.
      now rewrite (bind_Done _ _ _ _ _ Hs), (bind_Done _ _ _ _ _ Hl).
    + exists (CallNext :: seg0 ++ seg1 ++ post ++ seg').
      split.
      { rewrite Hc', Hc3, Hc1, Hc0. cbn [calls]. now rewrite <- !app_assoc. }
      change (CallNext :: seg0 ++ seg1 ++ post ++ seg')
        with ([CallNext] ++ seg0 ++ seg1 ++ post ++ seg').
      rewrite !analyze_calls_app, !teardown_calls_app,
        Hn0, Ht0, Hn1, Ht1, Hn3, Ht3, Hn', Ht'.
      cbn [flat_map fst snd map]. split; [reflexivity|].
      now destruct (Teardown d).
Qed.

(** X7.  Retry counting over a whole run.  Let the queue yield [N]
    compilations and then [io.EOF]; let the driver have no AnalysisError
    hook, let Setup and Teardown (where configured) succeed, and let the
    analyzer ask for [K_i] retries of the [i]-th compilation before it
    succeeds.  Then, with a bound above [N] and above every [K_i], [Run]
    returns nil; the analyzer has been called [K_i + 1] times on the [i]-th
    compilation, one compilation after the other in queue order, Teardown
    (when configured) once per compilation in queue order, and [Next]
    [N + 1] times. *)
Theorem retry_counts_over_a_run d ctx queue (items : list (Compilation * nat))
    fuel s s1 w :
  validate d = None ->
  AnalysisError d = None ->
  retried_items d ctx queue items s s1 ->
  queue ctx (world s1) = (NoItem io_EOF, w) ->
  length items < fuel ->
  Forall (fun i => snd i < fuel) items ->
  exists seg,
    Run fuel d ctx queue s
    = Done None {| world := w; calls := calls s ++ seg ++ [CallNext] |}
    /\ analyze_calls seg
       = flat_map (fun i => replicate (S (snd i)) (request d (fst i))) items
    /\ teardown_calls seg = match Teardown d with
                             | Some _ => map fst items
                             | None => []
                             end
    /\ count_next seg = length items.
Proof.
  intros Hv Hh Hrun Hq Hlen Hall.
  destruct (retried_items_handled _ _ _ fuel _ _ _ Hh Hrun Hall)
    as (Hitems & seg & Hc & Hn & Ht).
  exists seg.
  assert (Hlast : Next queue ctx (handle fuel d) s1
                  = Done (Some io_EOF) {| world := w; calls := calls s1 ++ [CallNext] |}).
  { unfold Next. now rewrite Hq. }
  split; [|split; [exact Hn|split; [exact Ht|]]].
  - unfold Run. rewrite Hv.
    rewrite (run_loop_ends _ _ _ _ _ _ _ Hitems fuel _ io_EOF Hlen Hlast).
    now rewrite Hc, <- app_assoc.
  - destruct (items_handled_next _ _ _ _ _ _ _ Hitems) as (seg' & Hc' & Hk).
    rewrite Hc in Hc'. apply app_inv_head in Hc'. now subst seg'.
Qed.

(** ** Retrying without end *)

Lemma retry_loop_never_ends d ctx cu (P : St -> Prop) :
  (forall s, P s -> exists s', attempt d ctx cu s = Done (Some ErrRetry) s' /\ P s') ->
  forall fuel s, P s -> retry_loop fuel d ctx cu (Some ErrRetry) s = OutOfFuel.
Proof.
  intros Hstep. induction fuel as [|fuel IH]; intros s Hs; [reflexivity|].
  destruct (Hstep s Hs) as (s' & Hat & Hs').
  rewrite (retry_loop_step _ _ _ _ _ _ _ Hat). now apply IH.
Qed.

(** X8.  The retry loop has no bound of its own.  If, from the state in which
    a fetched compilation is first analyzed, every attempt (the analyzer call
    and, when configured, the hook call on its error) ends in [ErrRetry], then
    no number of iterations makes [Run] return: the analyzer is called again
    and again on this compilation, and neither Teardown nor the next
    compilation is ever reached. *)
Theorem retries_are_unbounded d ctx queue cu (P : St -> Prop) s w s1 :
  validate d = None ->
  queue ctx (world s) = (Item cu, w) ->
  setup_phase d ctx cu {| world := w; calls := calls s ++ [CallNext] |} = Done None s1 ->
  P s1 ->
  (forall s2, P s2 -> exists s3, attempt d ctx cu s2 = Done (Some ErrRetry) s3 /\ P s3) ->
  forall fuel, Run fuel d ctx queue s = OutOfFuel.
Proof.
  intros Hv Hq Hs HP Hstep fuel. unfold Run. rewrite Hv.
  destruct fuel as [|n]; [reflexivity|].
  simpl. unfold bind at 1, Next. rewrite Hq. unfold handle.
  rewrite (bind_Done _ _ _ _ _ Hs). unfold bind at 1.
  now rewrite (retry_loop_never_ends d ctx cu P Hstep (S n) s1 HP).
Qed.

(** ** Apply *)


End Facts.

(** ** The properties at work in the example world *)

Import Example.


(** Setup returns [ErrRetry]: neither the item nor the run returns it. *)
Lemma retry_sentinel_never_surfaces_witness :
  Some (errorString "analysis setup error: retry analysis") <> Some ErrRetry
  /\ Some (fmt_Errorf "analysis setup error: " ErrRetry) <> Some ErrRetry.
Proof.
  destruct (retry_sentinel_never_surfaces driver_setup_retry tt queue 5)
    as [Hitem Hrun].
  split.
  - exact (Hitem cu1 (start [] 0) _ _ eq_refl).
  - apply (Hrun (fun w w' => match queued w as q
                               return (match q with
                                       | [] => (NoItem io_EOF, w)
                                       | cu :: rest =>
                                           (Item cu, {| queued := rest; retries := retries w |})
                                       end <> (NoItem ErrRetry, w'))
                             with
                             | [] => fun H => ltac:(discriminate H)
                             | _ :: _ => fun H => ltac:(discriminate H)
                             end)
             (start [cu1] 0) _ _ eq_refl).
Defined.


(** One compilation, then the end of the stream: two [Next] calls. *)
Lemma one_next_call_per_item_witness :
  exists seg,
    Run 5 driver tt queue (start [cu1] 1)
    = Done None
        {| world := {| queued := []; retries := 0 |};
           calls := [CallNext; CallSetup cu1;
                     CallAnalyze (request driver cu1); CallOutput "unit1";
                     CallAnalyze (request driver cu1); CallOutput "unit1";
                     CallTeardown cu1; CallNext] |}
    /\ [CallNext; CallSetup cu1;
        CallAnalyze (request driver cu1); CallOutput "unit1";
        CallAnalyze (request driver cu1); CallOutput "unit1";
        CallTeardown cu1; CallNext] = calls (start [cu1] 1) ++ seg
    /\ count_next seg = 2.
Proof.
  apply (one_next_call_per_item driver tt queue 5 1 (start [cu1] 1)
           {| world := {| queued := []; retries := 0 |};
              calls := [CallNext; CallSetup cu1;
                        CallAnalyze (request driver cu1); CallOutput "unit1";
                        CallAnalyze (request driver cu1); CallOutput "unit1";
                        CallTeardown cu1] |}
           {| world := {| queued := []; retries := 0 |};
              calls := [CallNext; CallSetup cu1;
                        CallAnalyze (request driver cu1); CallOutput "unit1";
                        CallAnalyze (request driver cu1); CallOutput "unit1";
                        CallTeardown cu1; CallNext] |} io_EOF eq_refl).
  - eapply items_handled_S; [reflexivity | apply items_handled_0].
  - reflexivity.
  - repeat constructor.
Defined.

(** The analyzer fails with [io.EOF] on the first of two compilations. *)
Lemma analysis_eof_is_taken_for_end_of_stream_witness :
  exists s3 seg,
    Run 5 (driver_with eof_analyzer) tt queue (start [cu1; cu2] 0) = Done None s3
    /\ calls s3 = calls (start [cu1; cu2] 0) ++ seg
    /\ count_next seg = 1.
Proof.
  exact (analysis_eof_is_taken_for_end_of_stream (driver_with eof_analyzer) tt queue cu1 5
           (start [cu1; cu2] 0) _ _ _ eq_refl eq_refl eq_refl eq_refl).
Defined.

Lemma item_eof_comes_from_the_analysis_witness :
  exists s1 s2,
    setup_phase (driver_with eof_analyzer) tt cu1 (start [] 0) = Done None s1
    /\ retry_loop 5 (driver_with eof_analyzer) tt cu1 (Some ErrRetry) s1
       = Done (Some io_EOF) s2
    /\ teardown_phase (driver_with eof_analyzer) tt cu1 (Some io_EOF) s2
       = Done (Some io_EOF)
           {| world := {| queued := []; retries := 0 |};
              calls := [CallSetup cu1;
                        CallAnalyze (request (driver_with eof_analyzer) cu1);
                        CallTeardown cu1] |}.
Proof.
  exact (item_eof_comes_from_the_analysis 5 (driver_with eof_analyzer) tt cu1
           (start [] 0) _ eq_refl).
Defined.

(** Two compilations, the first analyzed three times, the second once. *)
Lemma retry_counts_over_a_run_witness :
  exists seg,
    Run 5 driver tt queue (start [cu1; cu2] 2)
    = Done None {| world := {| queued := []; retries := 0 |};
                   calls := calls (start [cu1; cu2] 2) ++ seg ++ [CallNext] |}
    /\ analyze_calls seg
       = [request driver cu1; request driver cu1; request driver cu1; request driver cu2]
    /\ teardown_calls seg = [cu1; cu2]
    /\ count_next seg = 2.
Proof.
  apply (retry_counts_over_a_run driver tt queue [(cu1, 2); (cu2, 0)] 5
           (start [cu1; cu2] 2)
           {| world := {| queued := []; retries := 0 |};
              calls := [CallNext; CallSetup cu1;
                        CallAnalyze (request driver cu1); CallOutput "unit1";
                        CallAnalyze (request driver cu1); CallOutput "unit1";
                        CallAnalyze (request driver cu1); CallOutput "unit1";
                        CallTeardown cu1;
                        CallNext; CallSetup cu2;
                        CallAnalyze (request driver cu2); CallOutput "unit2";
                        CallTeardown cu2] |}
           {| queued := []; retries := 0 |} eq_refl eq_refl).
  - eapply retried_cons;
      [reflexivity | reflexivity
      | simpl; eexists; split; [reflexivity|]; eexists; split; reflexivity
      | reflexivity |].
    eapply retried_cons; [reflexivity | reflexivity | reflexivity | reflexivity |].
    apply retried_nil.
  - reflexivity.
  - repeat constructor.
  - repeat constructor.
Defined.

(** An analyzer that always asks for a retry. *)
Lemma retries_are_unbounded_witness :
  Run 9 (driver_with stubborn_analyzer) tt queue (start [cu1] 0) = OutOfFuel.
Proof.
  apply (retries_are_unbounded (driver_with stubborn_analyzer) tt queue cu1
           (fun _ => True) (start [cu1] 0) _ _ eq_refl eq_refl eq_refl I).
  intros s2 _. eexists. split; [reflexivity | exact I].
Defined.


End DriverMore.

(* ===================================================================== *)
(** * Part VI: further properties of the selectors                        *)
(* ===================================================================== *)

Module SelectorMore.
Import Selector.

Lemma any_selector_select_all {S : Type} `{BazelArtifactSelector S}
    (events : list BuildEvent) :
  forall s : S,
    select_all events (AnyArtifactSelector_of s)
    = (fst (select_all events s), AnyArtifactSelector_of (snd (select_all events s))).
Proof.
  induction events as [|e events IH]; intros s; [reflexivity|].
  cbn [select_all]. unfold Select at 1. cbn [AnyArtifactSelector_selector].
  unfold AnyArtifactSelector_Select.
  cbn [get_ held_impl held_class AnyArtifactSelector_of].
  destruct (Select e s) as [r s1].
  change {| held_class := S; held_impl := H; get_ := s1 |}
    with (AnyArtifactSelector_of s1).
  rewrite IH. now destruct (select_all events s1).
Qed.

(** X10.  An [AnyArtifactSelector] is transparent.  Over any stream of build
    events, the selector it holds (of any class derived from
    [BazelArtifactSelector]) is called on every event in order: the wrapper
    returns the same artifacts as the held selector alone and afterwards
    holds the selector the stream left.  Serializing through the wrapper, and
    the status of deserializing through it, are those of the held selector. *)
Theorem any_selector_is_transparent {S : Type} `{BazelArtifactSelector S}
    (s : S) (events : list BuildEvent) (state : Any) :
  select_all events (AnyArtifactSelector_of s)
  = (fst (select_all events s), AnyArtifactSelector_of (snd (select_all events s)))
  /\ SerializeInto (snd (select_all events (AnyArtifactSelector_of s))) state
     = SerializeInto (snd (select_all events s)) state
  /\ DeserializeFrom state (AnyArtifactSelector_of s)
     = (fst (DeserializeFrom state s),
        AnyArtifactSelector_of (snd (DeserializeFrom state s))).
Proof.
  split; [apply any_selector_select_all|]. split.
  - now rewrite any_selector_select_all.
  - unfold DeserializeFrom at 1. cbn [AnyArtifactSelector_selector].
    unfold AnyArtifactSelector_DeserializeFrom.
    cbn [get_ held_impl held_class AnyArtifactSelector_of].
    now destruct (DeserializeFrom state s).
Qed.

End SelectorMore.
